(** * Size-constrained label propagation (KaDraw coarsening)

    A shallow embedding of
    [lib/drawing/coarsening/clustering/size_constraint_label_propagation.cpp]:
    the propagation engine [label_propagation] (the overload that receives
    [block_upperbound]) and the cluster id remapper [remap_cluster_ids],
    together with the properties of both. *)

From Stdlib Require Import ZArith Lia.
From stdpp Require Import base numbers list gmap fin_maps fin_sets.

(** ** Arrays

    A [std::vector] is a list; [v[i]] is [get d v i] and [v[i] = x] is
    stdpp's [<[i:=x]> v].  Indexing past the end is undefined in the source;
    here a read past the end yields [d] and a write past the end does
    nothing.  The graphs and orders the engine is meant for never index
    past the end. *)

Definition get {A : Type} (d : A) (v : list A) (i : nat) : A :=
  default d (v !! i).

Definition sumZ (v : list Z) : Z := foldr Z.add 0%Z v.

(** ** The graph interface ([graph_access])

    The graph class is not part of this unit; what the engine uses of it is
    the node count, a weight per node, the out-edges of a node in iteration
    order (target and weight each), a partition label per node and the
    partition count. *)

Record edge := { getEdgeTarget : nat; getEdgeWeight : Z }.

Record node_entry := {
  node_weight : Z;
  node_edges : list edge;
  partition_index : nat
}.

Record graph_access := {
  nodes : list node_entry;
  partition_count : nat
}.

Definition no_node : node_entry :=
  {| node_weight := 0; node_edges := []; partition_index := 0 |}.

Definition number_of_nodes (G : graph_access) : nat := length (nodes G).

Definition node_at (G : graph_access) (n : nat) : node_entry :=
  get no_node (nodes G) n.

(** [forall_out_edges(G, e, node)] runs over this list. *)
Definition out_edges (G : graph_access) (n : nat) : list edge :=
  node_edges (node_at G n).

Definition getPartitionIndex (G : graph_access) (n : nat) : nat :=
  partition_index (node_at G n).

Definition setPartitionIndex (G : graph_access) (n id : nat) : graph_access :=
  {| nodes := alter (λ x, {| node_weight := node_weight x;
                             node_edges := node_edges x;
                             partition_index := id |}) n (nodes G);
     partition_count := partition_count G |}.

Definition set_partition_count (G : graph_access) (k : nat) : graph_access :=
  {| nodes := nodes G; partition_count := k |}.

(** ** The random source ([random_functions::nextBool])

    The coin is a global generator in the source; here it is a stream of
    flips and the number of flips drawn so far. *)

Record random_functions := { flips : nat → bool; drawn : nat }.

Definition nextBool (r : random_functions) : bool * random_functions :=
  (flips r (drawn r), {| flips := flips r; drawn := S (drawn r) |}).

(** ** Configuration: the one field the engine reads. *)

Record Config := { label_iterations : Z }.

(** ** State of the propagation loop *)

Record lp_state := {
  hash_map : list Z;
  cluster_sizes : list Z;
  cluster_id : list nat;
  change_counter : Z;
  rnd : random_functions
}.

(** State of the second sweep over a node's edges. *)
Record sweep := {
  sw_hash : list Z;
  max_value : Z;
  max_block : nat;
  sw_rnd : random_functions
}.

(** State of the remapping loop; [remapped] is the [cluster_id] vector,
    rewritten in place. *)
Record remap_state := {
  remap : gmap nat nat;
  cur_no_clusters : nat;
  remapped : list nat
}.

Section Engine.

(** [NodeID], [NodeWeight] and [PartitionID] are unsigned machine integers
    declared outside this unit; their width in bits is a parameter.  Every
    sum and difference stored in one of them is reduced modulo [2^width].
    Cluster ids and cluster counts are node indices or counts of nodes,
    which fit a [NodeID], and are kept as [nat]. *)
Variable width : nat.

Definition modulus : Z := 2 ^ Z.of_nat width.

Definition wrap (z : Z) : Z := z mod modulus.

(** [G.getNodeWeight(n)] is a [NodeWeight]: whatever number the graph
    stores, what the engine reads is below [2^width] and not negative. *)
Definition getNodeWeight (G : graph_access) (n : nat) : Z :=
  wrap (node_weight (node_at G n)).

Definition total_node_weight (G : graph_access) : Z :=
  sumZ (map (getNodeWeight G) (seq 0 (number_of_nodes G))).

(** *** First sweep: [hash_map[cluster_id[target]] += G.getEdgeWeight(e)] *)

Definition accumulate (cid : list nat) (hm : list Z) (e : edge) : list Z :=
  let c := get 0 cid (getEdgeTarget e) in
  <[c := wrap (get 0%Z hm c + getEdgeWeight e)]> hm.

Definition first_sweep (G : graph_access) (cid : list nat) (hm : list Z)
    (node : nat) : list Z :=
  foldl (accumulate cid) hm (out_edges G node).

(** *** Second sweep: finding the maximum and resetting the array *)

(** [cluster_sizes[cur_block] + G.getNodeWeight(node) <= block_upperbound
     || cur_block == my_block] *)
Definition admissible (block_upperbound : Z) (cs : list Z) (w : Z)
    (my_block cur_block : nat) : bool :=
  (wrap (get 0%Z cs cur_block + w) <=? block_upperbound)%Z
  || (cur_block =? my_block).

(** [cur_value > max_value || (cur_value == max_value && nextBool())]: the
    coin is drawn only on a tie, and before the capacity test. *)
Definition improves (cur_value best : Z) (r : random_functions)
    : bool * random_functions :=
  if (best <? cur_value)%Z then (true, r)
  else if (cur_value =? best)%Z then nextBool r
  else (false, r).

Definition select (block_upperbound : Z) (cs : list Z) (cid : list nat)
    (w : Z) (my_block : nat) (s : sweep) (e : edge) : sweep :=
  let cur_block := get 0 cid (getEdgeTarget e) in
  let cur_value := get 0%Z (sw_hash s) cur_block in
  let '(better, r) := improves cur_value (max_value s) (sw_rnd s) in
  let accept := better && admissible block_upperbound cs w my_block cur_block in
  {| sw_hash := <[cur_block := 0%Z]> (sw_hash s);
     max_value := if accept then cur_value else max_value s;
     max_block := if accept then cur_block else max_block s;
     sw_rnd := r |}.

Definition second_sweep (G : graph_access) (block_upperbound : Z)
    (cs : list Z) (cid : list nat) (hm : list Z) (r : random_functions)
    (node : nat) : sweep :=
  let my_block := get 0 cid node in
  foldl (select block_upperbound cs cid (getNodeWeight G node) my_block)
        {| sw_hash := hm; max_value := 0; max_block := my_block; sw_rnd := r |}
        (out_edges G node).

(** *** One node: body of the inner [forall_nodes] loop *)

Definition commit_sizes (cs : list Z) (w : Z) (my_block new_block : nat)
    : list Z :=
  let cs1 := <[my_block := wrap (get 0%Z cs my_block - w)]> cs in
  <[new_block := wrap (get 0%Z cs1 new_block + w)]> cs1.

Definition propagate_node (G : graph_access) (block_upperbound : Z)
    (st : lp_state) (node : nat) : lp_state :=
  let cid := cluster_id st in
  let hm := first_sweep G cid (hash_map st) node in
  let my_block := get 0 cid node in
  let s := second_sweep G block_upperbound (cluster_sizes st) cid hm (rnd st) node in
  let w := getNodeWeight G node in
  {| hash_map := sw_hash s;
     cluster_sizes := commit_sizes (cluster_sizes st) w my_block (max_block s);
     cluster_id := <[node := max_block s]> cid;
     change_counter :=
       wrap (change_counter st + (if my_block =? max_block s then 0 else 1));
     rnd := sw_rnd s |}.

(** *** Initialisation

    [hash_map] and [cluster_sizes] are fresh vectors of zeros, [cluster_id]
    is the caller's vector resized to the node count; the first loop then
    sets [cluster_sizes[node]] and [cluster_id[node]] for every node. *)

Definition init_node (G : graph_access) (st : lp_state) (node : nat) : lp_state :=
  {| hash_map := hash_map st;
     cluster_sizes := <[node := getNodeWeight G node]> (cluster_sizes st);
     cluster_id := <[node := node]> (cluster_id st);
     change_counter := change_counter st;
     rnd := rnd st |}.

Definition initial_state (G : graph_access) (cid0 : list nat)
    (r : random_functions) : lp_state :=
  let n := number_of_nodes G in
  foldl (init_node G)
        {| hash_map := replicate n 0%Z;
           cluster_sizes := replicate n 0%Z;
           cluster_id := resize n 0 cid0;
           change_counter := 0;
           rnd := r |}
        (seq 0 n).

(** *** Passes

    [order] is what [node_ordering::order_nodes] left in [permutation];
    [permutation[i]] is [get 0 order i]. *)

Definition start_pass (st : lp_state) : lp_state :=
  {| hash_map := hash_map st;
     cluster_sizes := cluster_sizes st;
     cluster_id := cluster_id st;
     change_counter := 0;
     rnd := rnd st |}.

(** The first [k] nodes of a pass. *)
Definition pass_prefix (G : graph_access) (block_upperbound : Z)
    (order : list nat) (k : nat) (st : lp_state) : lp_state :=
  foldl (λ st i, propagate_node G block_upperbound st (get 0 order i))
        (start_pass st) (seq 0 k).

Definition pass (G : graph_access) (block_upperbound : Z) (order : list nat)
    (st : lp_state) : lp_state :=
  pass_prefix G block_upperbound order (number_of_nodes G) st.

Definition passes (G : graph_access) (block_upperbound : Z) (order : list nat)
    (j : nat) (st : lp_state) : lp_state :=
  Nat.iter j (pass G block_upperbound order) st.

(** The state after [j] full passes and the first [k] nodes of the next
    one: every point of the run between two commits is of this form with
    [k] at most the node count. *)
Definition state_at (G : graph_access) (block_upperbound : Z)
    (cid0 order : list nat) (r : random_functions) (j k : nat) : lp_state :=
  pass_prefix G block_upperbound order (k `min` number_of_nodes G)
    (passes G block_upperbound order j (initial_state G cid0 r)).

(** The state the propagation loop ends in, before [remap_cluster_ids]. *)
Definition propagated (cfg : Config) (G : graph_access) (block_upperbound : Z)
    (cid0 order : list nat) (r : random_functions) : lp_state :=
  passes G block_upperbound order (Z.to_nat (label_iterations cfg))
    (initial_state G cid0 r).

End Engine.

(** ** [remap_cluster_ids]

    [remap] is the [std::unordered_map] from old to dense ids.  A cluster id
    without an entry gets [cur_no_clusters++]; the node's entry of the
    vector is then overwritten with [remap[cur_cluster]]. *)

Definition remap_node (s : remap_state) (node : nat) : remap_state :=
  let cur_cluster := get 0 (remapped s) node in
  let fresh := bool_decide (remap s !! cur_cluster = None) in
  let m := if fresh then <[cur_cluster := cur_no_clusters s]> (remap s)
           else remap s in
  {| remap := m;
     cur_no_clusters := if fresh then S (cur_no_clusters s) else cur_no_clusters s;
     remapped := <[node := default 0 (m !! cur_cluster)]> (remapped s) |}.

Definition remap_loop (cid : list nat) (n : nat) : remap_state :=
  foldl remap_node
        {| remap := ∅; cur_no_clusters := 0; remapped := cid |} (seq 0 n).

Definition apply_partition (G : graph_access) (cid : list nat) : graph_access :=
  foldl (λ G node, setPartitionIndex G node (get 0 cid node)) G
        (seq 0 (number_of_nodes G)).

(** The result is the graph, the [cluster_id] vector and the value stored
    into [no_of_coarse_vertices]. *)
Definition remap_cluster_ids (G : graph_access) (cid : list nat)
    (apply_to_graph : bool) : graph_access * list nat * nat :=
  let s := remap_loop cid (number_of_nodes G) in
  let G' := if apply_to_graph
            then set_partition_count (apply_partition G (remapped s))
                                     (cur_no_clusters s)
            else G in
  (G', remapped s, cur_no_clusters s).

(** ** [label_propagation]

    The call of [remap_cluster_ids] at its end leaves [apply_to_graph] to
    the default of the declaration, which is outside this unit:
    [apply_default] stands for it. *)
Definition label_propagation (width : nat) (apply_default : bool)
    (cfg : Config) (G : graph_access) (block_upperbound : Z)
    (cid0 order : list nat) (r : random_functions)
    : graph_access * list nat * nat :=
  remap_cluster_ids G
    (cluster_id (propagated width cfg G block_upperbound cid0 order r))
    apply_default.

(** ** Notions the properties are stated with *)

(** The clusters the out-edges of [node] lead to, one per edge, in edge
    order: the [cur_block]s of the second sweep. *)
Definition neighbour_blocks (G : graph_access) (cid : list nat) (node : nat)
    : list nat :=
  map (λ e, get 0 cid (getEdgeTarget e)) (out_edges G node).

(** No cluster next to [node] has both a positive accumulated vote (as the
    first sweep leaves it in [hash_map]) and passes the capacity test. *)
Definition no_eligible_vote (width : nat) (G : graph_access)
    (block_upperbound : Z) (st : lp_state) (node : nat) : bool :=
  let cid := cluster_id st in
  let hm := first_sweep width G cid (hash_map st) node in
  forallb (λ c, negb ((0 <? get 0%Z hm c)%Z &&
                      admissible width block_upperbound (cluster_sizes st)
                        (getNodeWeight width G node) (get 0 cid node) c))
          (neighbour_blocks G cid node).

(** The weight of the nodes that [cid] puts into cluster [c]. *)
Definition member_weight (width : nat) (G : graph_access) (cid : list nat)
    (c : nat) : Z :=
  sumZ (map (λ v, if decide (get 0 cid v = c) then getNodeWeight width G v
                  else 0%Z)
            (seq 0 (number_of_nodes G))).

(** The draws of the coin during the second sweep, in the order of the
    edges.  [nextBool] is called at an edge exactly when [cur_value >
    max_value] fails and [cur_value == max_value] holds; a draw is recorded
    as the [cur_block] it is for and the flip that came up. *)
Definition tie_of (cid : list nat) (s : sweep) (e : edge) : list (nat * bool) :=
  let cur_block := get 0 cid (getEdgeTarget e) in
  let cur_value := get 0%Z (sw_hash s) cur_block in
  if (max_value s <? cur_value)%Z then []
  else if (cur_value =? max_value s)%Z
       then [(cur_block, (nextBool (sw_rnd s)).1)]
       else [].

Fixpoint ties_from (width : nat) (block_upperbound : Z) (cs : list Z)
    (cid : list nat) (w : Z) (my_block : nat) (s : sweep) (es : list edge)
    : list (nat * bool) :=
  match es with
  | [] => []
  | e :: es' =>
      tie_of cid s e ++
      ties_from width block_upperbound cs cid w my_block
        (select width block_upperbound cs cid w my_block s e) es'
  end.

Definition ties_drawn (width : nat) (G : graph_access) (block_upperbound : Z)
    (st : lp_state) (node : nat) : list (nat * bool) :=
  let cid := cluster_id st in
  ties_from width block_upperbound (cluster_sizes st) cid
    (getNodeWeight width G node) (get 0 cid node)
    {| sw_hash := first_sweep width G cid (hash_map st) node;
       max_value := 0; max_block := get 0 cid node; sw_rnd := rnd st |}
    (out_edges G node).

(** A draw that came up true for a cluster that passes the capacity test. *)
Definition tie_won (width : nat) (G : graph_access) (block_upperbound : Z)
    (st : lp_state) (node : nat) (t : nat * bool) : bool :=
  t.2 && admissible width block_upperbound (cluster_sizes st)
           (getNodeWeight width G node) (get 0 (cluster_id st) node) t.1.

(** The cluster of the last such draw of the visit, if there is one. *)
Definition last_eligible_tie (width : nat) (G : graph_access)
    (block_upperbound : Z) (st : lp_state) (node : nat) : option nat :=
  foldl (λ acc t, if tie_won width G block_upperbound st node t
                  then Some t.1 else acc)
        None (ties_drawn width G block_upperbound st node).

(** Every cluster next to [node] other than its own fails the capacity
    test. *)
Definition others_full (width : nat) (G : graph_access) (block_upperbound : Z)
    (st : lp_state) (node : nat) : bool :=
  forallb (λ c, (c =? get 0 (cluster_id st) node) ||
                negb (admissible width block_upperbound (cluster_sizes st)
                        (getNodeWeight width G node)
                        (get 0 (cluster_id st) node) c))
          (neighbour_blocks G (cluster_id st) node).

(** What holds after the first [n] nodes have been remapped. *)
Record remap_inv (cid : list nat) (n : nat) (s : remap_state) : Prop := {
  ri_length : length (remapped s) = length cid;
  ri_rest : ∀ i, n ≤ i → remapped s !! i = cid !! i;
  ri_done : ∀ i c, i < n → cid !! i = Some c →
            ∃ v, remap s !! c = Some v ∧ remapped s !! i = Some v;
  ri_seen : ∀ c v, remap s !! c = Some v →
            v < cur_no_clusters s ∧ (∃ i, i < n ∧ cid !! i = Some c) ∧
            (∀ i, cid !! i = Some c → v ≤ i);
  ri_inj : ∀ c c' v, remap s !! c = Some v → remap s !! c' = Some v → c = c';
  ri_onto : ∀ v, v < cur_no_clusters s → ∃ c, remap s !! c = Some v;
  ri_count : cur_no_clusters s ≤ n;
  ri_size : size (remap s) = cur_no_clusters s
}.

(** What holds of the size tracker at every point of a run: it has one
    entry per node, every cluster id is a node index, the size tracked for
    a cluster is the weight of its members, and the sizes add up to the
    weight of the graph. *)
Record sizes_inv (width : nat) (G : graph_access) (st : lp_state) : Prop := {
  si_sizes_length : length (cluster_sizes st) = number_of_nodes G;
  si_ids_length : length (cluster_id st) = number_of_nodes G;
  si_ids_range : ∀ v, v < number_of_nodes G →
                 get 0 (cluster_id st) v < number_of_nodes G;
  si_sizes : ∀ c, c < number_of_nodes G →
             get 0%Z (cluster_sizes st) c
             = member_weight width G (cluster_id st) c;
  si_sum : sumZ (cluster_sizes st) = total_node_weight width G
}.

(** ** [create_coarsemapping], [match_internal] and [match]

    [create_coarsemapping] copies the cluster id of every node into the
    caller's [coarse_mapping].  [match_internal] starts from a fresh vector
    of zeros, runs the engine and exports the result; [block_upperbound]
    stands for [ceil(config.upper_bound_partition)], a floating-point value
    that is taken as given here.  [match] (a keyword, hence [match_]) sizes
    the caller's [permutation] and [coarse_mapping] to the node count, runs
    [match_internal] and stores the cluster count as the partition count of
    the graph; its [_matching] is not used.  The result is the graph, the
    coarse mapping, [no_of_coarse_vertices] and the permutation. *)

Definition create_coarsemapping (G : graph_access) (cid coarse_mapping : list nat)
    : list nat :=
  foldl (λ cm node, <[node := get 0 cid node]> cm) coarse_mapping
        (seq 0 (number_of_nodes G)).

Definition match_internal (width : nat) (apply_default : bool) (cfg : Config)
    (G : graph_access) (block_upperbound : Z) (coarse_mapping order : list nat)
    (r : random_functions) : graph_access * list nat * nat :=
  let cluster_id := replicate (number_of_nodes G) 0 in
  let res := label_propagation width apply_default cfg G block_upperbound
               cluster_id order r in
  (res.1.1, create_coarsemapping res.1.1 res.1.2 coarse_mapping, res.2).

Definition match_ (width : nat) (apply_default : bool) (cfg : Config)
    (G : graph_access) (block_upperbound : Z)
    (coarse_mapping permutation order : list nat) (r : random_functions)
    : graph_access * list nat * nat * list nat :=
  let permutation' := resize (number_of_nodes G) 0 permutation in
  let coarse_mapping' := resize (number_of_nodes G) 0 coarse_mapping in
  let res := match_internal width apply_default cfg G block_upperbound
               coarse_mapping' order r in
  (set_partition_count res.1.1 res.2, res.1.2, res.2, permutation').

(** ** Well-formed inputs

    Every edge leads to a node of the graph, and the order names nodes of
    the graph. *)

Definition targets_in_range (G : graph_access) : bool :=
  forallb (λ x, forallb (λ e, getEdgeTarget e <? number_of_nodes G)
                        (node_edges x))
          (nodes G).

Definition order_in_range (G : graph_access) (order : list nat) : bool :=
  forallb (λ i, get 0 order i <? number_of_nodes G)
          (seq 0 (number_of_nodes G)).

(** ** Further notions *)

(** The vote of [node] for cluster [c]: the weights of its out-edges into
    [c], added up in a [PartitionID]. *)
Definition vote (width : nat) (G : graph_access) (cid : list nat)
    (node c : nat) : Z :=
  wrap width
    (sumZ (map (λ e, if decide (get 0 cid (getEdgeTarget e) = c)
                     then getEdgeWeight e else 0%Z)
               (out_edges G node))).

(** Dense ids numbered by first appearance: whatever id stands at an index,
    every smaller id stands at an earlier index. *)
Definition first_appearance_order (v : list nat) : Prop :=
  ∀ i x y, v !! i = Some x → y < x → ∃ i', i' < i ∧ v !! i' = Some y.

(** Every edge joins two nodes of the same cluster. *)
Definition settled (G : graph_access) (cid : list nat) : bool :=
  forallb (λ node, forallb (λ c, c =? get 0 cid node)
                           (neighbour_blocks G cid node))
          (seq 0 (number_of_nodes G)).

(** Cluster [c] has a positive vote of [node] that is larger than the vote
    of every other cluster next to [node]. *)
Definition strict_winner (width : nat) (G : graph_access) (cid : list nat)
    (node c : nat) : bool :=
  (0 <? vote width G cid node c)%Z &&
  forallb (λ c', (c' =? c) ||
                 (vote width G cid node c' <? vote width G cid node c)%Z)
          (neighbour_blocks G cid node).

(** No node is heavier than [block_upperbound]. *)
Definition weights_within (width : nat) (G : graph_access)
    (block_upperbound : Z) : bool :=
  forallb (λ v, (getNodeWeight width G v <=? block_upperbound)%Z)
          (seq 0 (number_of_nodes G)).

(** The working arrays have one entry per node and every cluster id is a
    node index. *)
Record range_inv (G : graph_access) (st : lp_state) : Prop := {
  rg_hash_length : length (hash_map st) = number_of_nodes G;
  rg_sizes_length : length (cluster_sizes st) = number_of_nodes G;
  rg_ids_length : length (cluster_id st) = number_of_nodes G;
  rg_ids : ∀ v, v < number_of_nodes G →
           get 0 (cluster_id st) v < number_of_nodes G
}.

(** ** Examples *)

Definition unit_node (es : list edge) : node_entry :=
  {| node_weight := 1; node_edges := es; partition_index := 0 |}.

Definition to (t : nat) (w : Z) : edge := {| getEdgeTarget := t; getEdgeWeight := w |}.

(** The path 0 - 1 - 2 - 3 with unit weights. *)
Definition path4 : graph_access :=
  {| nodes := [unit_node [to 1 1]; unit_node [to 0 1; to 2 1];
               unit_node [to 1 1; to 3 1]; unit_node [to 2 1]];
     partition_count := 0 |}.

(** Two nodes of weight 1 joined by an edge of weight 0. *)
Definition zero_edge_pair : graph_access :=
  {| nodes := [unit_node [to 1 0]; unit_node [to 0 0]];
     partition_count := 0 |}.

(** Nodes 0 and 1 joined by an edge, node 2 without edges. *)
Definition pair_and_loner : graph_access :=
  {| nodes := [unit_node [to 1 1]; unit_node [to 0 1]; unit_node []];
     partition_count := 0 |}.

(** A triangle with unit weights. *)
Definition triangle : graph_access :=
  {| nodes := [unit_node [to 1 1; to 2 1]; unit_node [to 0 1; to 2 1];
               unit_node [to 0 1; to 1 1]];
     partition_count := 0 |}.

(** A star: node 0 with edges of weight 1, 1 and 3 to the leaves 1, 2, 3. *)
Definition star4 : graph_access :=
  {| nodes := [unit_node [to 1 1; to 2 1; to 3 3]; unit_node [to 0 1];
               unit_node [to 0 1]; unit_node [to 0 3]];
     partition_count := 0 |}.

(** Node 0 with an edge of weight 0 to node 1 and a loop of weight 0. *)
Definition zero_edge_and_loop : graph_access :=
  {| nodes := [unit_node [to 1 0; to 0 0]; unit_node [to 0 0]];
     partition_count := 0 |}.

Definition heads : random_functions := {| flips := λ _, true; drawn := 0 |}.
Definition tails : random_functions := {| flips := λ _, false; drawn := 0 |}.

(** Closing a goal about concrete inputs by evaluation. *)
Ltac by_evaluation := vm_compute; first [done | lia].

(** * Reading an array *)

Lemma get_lookup {A : Type} (d : A) (v : list A) (i : nat) (x : A) :
  v !! i = Some x → get d v i = x.
Proof. unfold get. by intros ->. Qed.

(** * Properties of [remap_cluster_ids] *)

Lemma remap_loop_S (cid : list nat) (n : nat) :
  remap_loop cid (S n) = remap_node (remap_loop cid n) n.
Proof. unfold remap_loop. by rewrite seq_S, foldl_app. Qed.

Lemma remap_inv_start (cid : list nat) :
  remap_inv cid 0 {| remap := ∅; cur_no_clusters := 0; remapped := cid |}.
Proof.
  split; simpl; try done; lia.
Qed.

Lemma remap_inv_step (cid : list nat) (n : nat) (s : remap_state) :
  n < length cid → remap_inv cid n s → remap_inv cid (S n) (remap_node s n).
Proof.
  intros Hn [Hlen Hrest Hdone Hseen Hinj Honto Hcount Hsize].
  destruct (lookup_lt_is_Some_2 cid n Hn) as [c Hc].
  assert (Hcur : get 0 (remapped s) n = c).
  { apply get_lookup. by rewrite Hrest. }
  unfold remap_node. rewrite Hcur.
  case_bool_decide as Hfresh; simpl.
  - (* a cluster id seen for the first time *)
    rewrite lookup_insert_eq. simpl.
    split; simpl.
    + by rewrite length_insert.
    + intros i Hi. rewrite list_lookup_insert_ne by lia. apply Hrest. lia.
    + intros i c' Hi Hc'. destruct (decide (i = n)) as [->|Hne].
      * assert (c' = c) as -> by congruence.
        exists (cur_no_clusters s). rewrite lookup_insert_eq.
        split; [done|]. apply list_lookup_insert_eq. lia.
      * destruct (Hdone i c') as (v & Hv & Hr); [lia|done|].
        exists v. rewrite lookup_insert_ne by congruence.
        split; [done|]. by rewrite list_lookup_insert_ne.
    + intros c' v. destruct (decide (c = c')) as [<-|Hne].
      * rewrite lookup_insert_eq. intros [= <-].
        split; [lia|]. split; [exists n; split; [lia|done]|].
        intros i Hi. destruct (decide (i < n)) as [Hlt|]; [|lia].
        destruct (Hdone i c Hlt Hi) as (v & Hv & _). congruence.
      * rewrite lookup_insert_ne by done. intros Hv.
        destruct (Hseen c' v Hv) as (? & (i & ? & ?) & ?).
        split; [lia|]. split; [exists i; split; [lia|done]|done].
    + intros c1 c2 v.
      destruct (decide (c = c1)) as [<-|H1], (decide (c = c2)) as [<-|H2];
        rewrite ?lookup_insert_eq, ?lookup_insert_ne by done.
      * done.
      * intros [= <-] Hv. apply Hseen in Hv. lia.
      * intros Hv [= <-]. apply Hseen in Hv. lia.
      * apply Hinj.
    + intros v Hv. destruct (decide (v = cur_no_clusters s)) as [->|Hne].
      * exists c. apply lookup_insert_eq.
      * destruct (Honto v) as [c' Hc']; [lia|].
        exists c'. rewrite lookup_insert_ne; [done|]. congruence.
    + lia.
    + rewrite map_size_insert_None by done. lia.
  - (* a cluster id that already has its dense id *)
    destruct (remap s !! c) as [v|] eqn:Hv; [|done]. simpl.
    split; simpl; try done.
    + by rewrite length_insert.
    + intros i Hi. rewrite list_lookup_insert_ne by lia. apply Hrest. lia.
    + intros i c' Hi Hc'. destruct (decide (i = n)) as [->|Hne].
      * assert (c' = c) as -> by congruence.
        exists v. split; [done|]. apply list_lookup_insert_eq. lia.
      * destruct (Hdone i c') as (v' & Hv' & Hr); [lia|done|].
        exists v'. split; [done|]. by rewrite list_lookup_insert_ne.
    + intros c' v' Hv'. destruct (Hseen c' v' Hv') as (? & (i & ? & ?) & ?).
      split; [lia|]. split; [exists i; split; [lia|done]|done].
    + lia.
Qed.

Lemma remap_loop_inv (cid : list nat) (n : nat) :
  n ≤ length cid → remap_inv cid n (remap_loop cid n).
Proof.
  induction n as [|n IH]; intros Hn.
  - apply remap_inv_start.
  - rewrite remap_loop_S. apply remap_inv_step; [lia|]. apply IH. lia.
Qed.

Lemma remap_cluster_ids_inv (G G' : graph_access) (cid cid' : list nat)
    (apply_to_graph : bool) (k : nat) :
  length cid = number_of_nodes G →
  remap_cluster_ids G cid apply_to_graph = (G', cid', k) →
  ∃ s, remap_inv cid (length cid) s ∧ remapped s = cid' ∧ cur_no_clusters s = k.
Proof.
  intros Hlen Heq. unfold remap_cluster_ids in Heq.
  exists (remap_loop cid (number_of_nodes G)).
  rewrite Hlen. split; [|by inversion Heq].
  apply remap_loop_inv. lia.
Qed.

Lemma remap_inv_get (cid : list nat) (s : remap_state) (u : nat) :
  remap_inv cid (length cid) s → u < length cid →
  remap s !! get 0 cid u = Some (get 0 (remapped s) u).
Proof.
  intros Hinv Hu.
  destruct (lookup_lt_is_Some_2 cid u Hu) as [c Hc].
  destruct (ri_done _ _ _ Hinv u c Hu Hc) as (v & Hv & Hr).
  by rewrite (get_lookup 0 _ _ _ Hc), (get_lookup 0 _ _ _ Hr).
Qed.

(** C5 (compaction density): after [remap_cluster_ids] on a [cluster_id]
    vector with one entry per node, the ids in the vector are exactly the
    numbers below [k], where [k] is the number of distinct ids the vector
    held before and the value stored into [no_of_coarse_vertices]. *)
Theorem remap_cluster_ids_dense (G G' : graph_access) (cid cid' : list nat)
    (apply_to_graph : bool) (k : nat) :
  length cid = number_of_nodes G →
  remap_cluster_ids G cid apply_to_graph = (G', cid', k) →
  (∀ x, x ∈ cid' ↔ x < k) ∧ k = size (list_to_set cid : gset nat).
Proof.
  intros Hlen Heq.
  destruct (remap_cluster_ids_inv _ _ _ _ _ _ Hlen Heq) as (s & Hinv & <- & <-).
  split.
  - intros x. split.
    + intros [i Hi]%list_elem_of_lookup.
      assert (i < length cid) as Hlt.
      { rewrite <- (ri_length _ _ _ Hinv). by eapply lookup_lt_Some. }
      pose proof (remap_inv_get _ _ _ Hinv Hlt) as Hm.
      rewrite (get_lookup 0 _ _ _ Hi) in Hm.
      by apply (ri_seen _ _ _ Hinv) in Hm as [? _].
    + intros Hx. destruct (ri_onto _ _ _ Hinv x Hx) as [c Hc].
      destruct (ri_seen _ _ _ Hinv c x Hc) as (_ & (i & Hi & Hci) & _).
      destruct (ri_done _ _ _ Hinv i c Hi Hci) as (v & Hv & Hr).
      apply list_elem_of_lookup. exists i. congruence.
  - rewrite <- (ri_size _ _ _ Hinv), <- (size_dom (D:=gset nat)).
    f_equal. apply set_eq. intros c.
    rewrite elem_of_dom, elem_of_list_to_set, list_elem_of_lookup. split.
    + intros [v Hv]. destruct (ri_seen _ _ _ Hinv c v Hv) as (_ & (i & _ & Hi) & _).
      by exists i.
    + intros [i Hi]. assert (i < length cid) as Hlt by by eapply lookup_lt_Some.
      destruct (ri_done _ _ _ Hinv i c Hlt Hi) as (v & Hv & _). by exists v.
Qed.

(** C6 (grouping preservation): two nodes carry the same cluster id before
    [remap_cluster_ids] exactly when they carry the same id after it. *)
Theorem remap_cluster_ids_grouping (G G' : graph_access) (cid cid' : list nat)
    (apply_to_graph : bool) (k u v : nat) :
  length cid = number_of_nodes G →
  remap_cluster_ids G cid apply_to_graph = (G', cid', k) →
  u < number_of_nodes G → v < number_of_nodes G →
  get 0 cid u = get 0 cid v ↔ get 0 cid' u = get 0 cid' v.
Proof.
  intros Hlen Heq Hu Hv.
  destruct (remap_cluster_ids_inv _ _ _ _ _ _ Hlen Heq) as (s & Hinv & <- & _).
  rewrite <- Hlen in Hu, Hv.
  pose proof (remap_inv_get _ _ _ Hinv Hu) as Hmu.
  pose proof (remap_inv_get _ _ _ Hinv Hv) as Hmv.
  split.
  - intros Hsame. rewrite Hsame in Hmu. congruence.
  - intros Hsame. rewrite Hsame in Hmu. by eapply (ri_inj _ _ _ Hinv).
Qed.

(** C10: after [remap_cluster_ids] the dense id of a node is at most the
    node's index, node 0 of a non-empty graph has id 0, and the reported
    cluster count is at most the number of nodes. *)
Theorem remap_cluster_ids_bounded (G G' : graph_access) (cid cid' : list nat)
    (apply_to_graph : bool) (k : nat) :
  length cid = number_of_nodes G →
  remap_cluster_ids G cid apply_to_graph = (G', cid', k) →
  (∀ u, u < number_of_nodes G → get 0 cid' u ≤ u) ∧
  (0 < number_of_nodes G → get 0 cid' 0 = 0) ∧
  k ≤ number_of_nodes G.
Proof.
  intros Hlen Heq.
  destruct (remap_cluster_ids_inv _ _ _ _ _ _ Hlen Heq) as (s & Hinv & <- & <-).
  assert (Hle : ∀ u, u < number_of_nodes G → get 0 (remapped s) u ≤ u).
  { intros u Hu. rewrite <- Hlen in Hu.
    pose proof (remap_inv_get _ _ _ Hinv Hu) as Hm.
    destruct (lookup_lt_is_Some_2 cid u Hu) as [c Hc].
    rewrite (get_lookup 0 _ _ _ Hc) in Hm.
    destruct (ri_seen _ _ _ Hinv _ _ Hm) as (_ & _ & Hfirst). by apply Hfirst. }
  split; [done|]. split.
  - intros H0. specialize (Hle 0 H0). lia.
  - rewrite <- Hlen. apply (ri_count _ _ _ Hinv).
Qed.

(** ** Write-back to the graph *)

Lemma apply_partition_prefix (G : graph_access) (cid : list nat) (n : nat) :
  let G' := foldl (λ G node, setPartitionIndex G node (get 0 cid node)) G (seq 0 n) in
  length (nodes G') = length (nodes G) ∧
  partition_count G' = partition_count G ∧
  ∀ node, node < n → node < length (nodes G) →
          getPartitionIndex G' node = get 0 cid node.
Proof.
  cbv zeta. induction n as [|n (IHlen & IHcount & IHidx)].
  - repeat split; try done. lia.
  - rewrite seq_S, foldl_app. simpl.
    set (Gn := foldl _ G (seq 0 n)) in *.
    split; [by rewrite length_alter|]. split; [done|].
    intros node Hnode Hlt. unfold getPartitionIndex, node_at, get. simpl.
    rewrite list_lookup_alter. destruct (decide (n = node)) as [->|Hne].
    + destruct (lookup_lt_is_Some_2 (nodes Gn) node) as [x ->]; [lia|done].
    + apply IHidx; [lia|done].
Qed.

(** C9 (write-back only on request): with [apply_to_graph = false] the
    graph comes back as it went in, so no partition label and no partition
    count is written; with [apply_to_graph = true] every node's label is its
    compacted id and the partition count is the cluster count.  The vector
    and the count returned do not depend on the flag. *)
Theorem remap_cluster_ids_write_back (G : graph_access) (cid : list nat) :
  (remap_cluster_ids G cid false).1.1 = G ∧
  (∀ node, node < number_of_nodes G →
     getPartitionIndex (remap_cluster_ids G cid true).1.1 node
     = get 0 (remap_cluster_ids G cid true).1.2 node) ∧
  partition_count (remap_cluster_ids G cid true).1.1
  = (remap_cluster_ids G cid true).2 ∧
  (remap_cluster_ids G cid false).1.2 = (remap_cluster_ids G cid true).1.2 ∧
  (remap_cluster_ids G cid false).2 = (remap_cluster_ids G cid true).2.
Proof.
  unfold remap_cluster_ids. simpl. split; [done|]. split; [|done].
  intros node Hnode. unfold apply_partition.
  by apply apply_partition_prefix.
Qed.

(** * Properties of the propagation engine *)

(** ** Initialisation *)

Lemma init_loop_spec (width : nat) (G : graph_access) (st : lp_state) (n : nat) :
  n ≤ length (cluster_id st) → n ≤ length (cluster_sizes st) →
  let st' := foldl (init_node width G) st (seq 0 n) in
  hash_map st' = hash_map st ∧ rnd st' = rnd st ∧
  change_counter st' = change_counter st ∧
  cluster_id st' = seq 0 n ++ drop n (cluster_id st) ∧
  cluster_sizes st' =
    map (getNodeWeight width G) (seq 0 n) ++ drop n (cluster_sizes st).
Proof.
  cbv zeta. induction n as [|n IH]; intros Hid Hsz.
  - simpl. by rewrite !drop_0.
  - destruct IH as (Hh & Hr & Hc & Hcid & Hcs); [lia..|].
    rewrite seq_S, foldl_app. simpl. rewrite Hh, Hr, Hc, Hcid, Hcs.
    repeat split; try done.
    + destruct (lookup_lt_is_Some_2 (cluster_id st) n) as [x Hx]; [lia|].
      rewrite insert_app_r_alt by (rewrite length_seq; lia).
      rewrite length_seq, Nat.sub_diag, (drop_S _ x n Hx). simpl.
      by rewrite <- app_assoc.
    + destruct (lookup_lt_is_Some_2 (cluster_sizes st) n) as [x Hx]; [lia|].
      rewrite insert_app_r_alt by (rewrite length_map, length_seq; lia).
      rewrite length_map, length_seq, Nat.sub_diag, (drop_S _ x n Hx). simpl.
      by rewrite map_app, <- app_assoc.
Qed.

Lemma initial_state_spec (width : nat) (G : graph_access) (cid0 : list nat)
    (r : random_functions) :
  let st := initial_state width G cid0 r in
  hash_map st = replicate (number_of_nodes G) 0%Z ∧
  cluster_id st = seq 0 (number_of_nodes G) ∧
  cluster_sizes st = map (getNodeWeight width G) (seq 0 (number_of_nodes G)) ∧
  rnd st = r.
Proof.
  unfold initial_state.
  edestruct (init_loop_spec width G) as (Hh & Hr & _ & Hcid & Hcs);
    [| |rewrite Hh, Hr, Hcid, Hcs]; simpl.
  - by rewrite length_resize.
  - by rewrite length_replicate.
  - rewrite !drop_ge, !app_nil_r; [done|by rewrite length_replicate|by rewrite length_resize].
Qed.

(** ** Remapping the singleton assignment *)

Lemma remap_loop_singletons (N n : nat) :
  n ≤ N →
  remapped (remap_loop (seq 0 N) n) = seq 0 N ∧
  cur_no_clusters (remap_loop (seq 0 N) n) = n ∧
  ∀ c, remap (remap_loop (seq 0 N) n) !! c = if decide (c < n) then Some c else None.
Proof.
  induction n as [|n IH]; intros Hn.
  - repeat split; try done.
  - destruct IH as (Hr & Hk & Hm); [lia|].
    rewrite remap_loop_S. unfold remap_node. rewrite Hr, Hk.
    assert (Hget : get 0 (seq 0 N) n = n).
    { apply get_lookup. by rewrite lookup_seq_lt by lia. }
    rewrite Hget, bool_decide_eq_true_2; simpl.
    2: { rewrite Hm. case_decide; [lia|done]. }
    rewrite lookup_insert_eq. simpl. split; [|split; [done|]].
    + apply list_insert_id. by rewrite lookup_seq_lt by lia.
    + intros c. destruct (decide (n = c)) as [->|Hne].
      * rewrite lookup_insert_eq. case_decide; [done|lia].
      * rewrite lookup_insert_ne, Hm by done. repeat case_decide; try done; lia.
Qed.

(** C4 (zero iterations): with [label_iterations = 0] no pass runs, the
    assignment the loop ends in is the singleton one, [remap_cluster_ids]
    gives node [i] the dense id [i], and the reported cluster count is the
    number of nodes. *)
Theorem label_propagation_zero_iterations (width : nat) (apply_default : bool)
    (G : graph_access) (block_upperbound : Z) (cid0 order : list nat)
    (r : random_functions) :
  let cfg := {| label_iterations := 0 |} in
  let N := number_of_nodes G in
  cluster_id (propagated width cfg G block_upperbound cid0 order r) = seq 0 N ∧
  (label_propagation width apply_default cfg G block_upperbound cid0 order r).1.2
    = seq 0 N ∧
  (label_propagation width apply_default cfg G block_upperbound cid0 order r).2
    = N.
Proof.
  intros cfg N.
  assert (Hcid : cluster_id (propagated width cfg G block_upperbound cid0 order r)
                 = seq 0 N).
  { unfold propagated. simpl. apply initial_state_spec. }
  split; [done|].
  unfold label_propagation, remap_cluster_ids. rewrite Hcid. simpl.
  destruct (remap_loop_singletons N N) as (Hr & Hk & _); [lia|].
  by split.
Qed.

(** ** Reading an array after a write *)

Lemma get_insert {A : Type} (d : A) (v : list A) (i j : nat) (x : A) :
  get d (<[i:=x]> v) j = if decide (i = j ∧ i < length v) then x else get d v j.
Proof. unfold get. rewrite list_lookup_insert. by case_decide. Qed.

Lemma get_insert_ne {A : Type} (d : A) (v : list A) (i j : nat) (x : A) :
  i ≠ j → get d (<[i:=x]> v) j = get d v j.
Proof. intros. unfold get. by rewrite list_lookup_insert_ne. Qed.

Lemma get_ge {A : Type} (d : A) (v : list A) (i : nat) :
  length v ≤ i → get d v i = d.
Proof. intros. unfold get. by rewrite lookup_ge_None_2. Qed.

Lemma get_seq (n i : nat) : i < n → get 0 (seq 0 n) i = i.
Proof. intros. apply get_lookup. by rewrite lookup_seq_lt. Qed.

Lemma all_zero (v : list Z) (n : nat) :
  length v = n → (∀ c, get 0%Z v c = 0%Z) → v = replicate n 0%Z.
Proof.
  intros Hlen Hz. apply list_eq. intros c.
  destruct (decide (c < n)) as [Hc|Hc].
  - rewrite lookup_replicate_2 by done.
    destruct (lookup_lt_is_Some_2 v c) as [x Hx]; [lia|].
    specialize (Hz c). rewrite (get_lookup _ _ _ _ Hx) in Hz. by subst.
  - rewrite !lookup_ge_None_2; [done|rewrite length_replicate; lia|lia].
Qed.

Lemma wrap_nonneg (width : nat) (z : Z) : (0 ≤ wrap width z)%Z.
Proof. unfold wrap, modulus. apply Z.mod_pos_bound. lia. Qed.

Lemma wrap_lt (width : nat) (z : Z) : (wrap width z < modulus width)%Z.
Proof. unfold wrap, modulus. apply Z.mod_pos_bound. lia. Qed.

Lemma wrap_small (width : nat) (z : Z) :
  (0 ≤ z < modulus width)%Z → wrap width z = z.
Proof. unfold wrap. apply Z.mod_small. Qed.

(** ** The two sweeps and the vote array *)

Section Sweeps.
Variable width : nat.
Variables (block_upperbound : Z) (cs : list Z) (cid : list nat) (w : Z)
          (my_block : nat).

Let block_of (e : edge) : nat := get 0 cid (getEdgeTarget e).
Let step := select width block_upperbound cs cid w my_block.

Lemma accumulate_length (hm : list Z) (es : list edge) :
  length (foldl (accumulate width cid) hm es) = length hm.
Proof.
  revert hm. induction es as [|e es IH]; intros hm; simpl; [done|].
  rewrite IH. unfold accumulate. by rewrite length_insert.
Qed.

(** The first sweep writes only entries of clusters next to the node. *)
Lemma accumulate_other (hm : list Z) (es : list edge) (c : nat) :
  c ∉ map block_of es →
  get 0%Z (foldl (accumulate width cid) hm es) c = get 0%Z hm c.
Proof.
  revert hm. induction es as [|e es IH]; intros hm Hc; simpl; [done|].
  rewrite map_cons, not_elem_of_cons in Hc. destruct Hc as [Hne Hc].
  rewrite IH by done. unfold accumulate. by rewrite get_insert_ne.
Qed.

Lemma select_hash (s : sweep) (e : edge) :
  sw_hash (step s e) = <[block_of e := 0%Z]> (sw_hash s).
Proof. unfold step, select. by destruct (improves _ _ _). Qed.

Lemma sweep_length (s : sweep) (es : list edge) :
  length (sw_hash (foldl step s es)) = length (sw_hash s).
Proof.
  revert s. induction es as [|e es IH]; intros s; simpl; [done|].
  by rewrite IH, select_hash, length_insert.
Qed.

(** The second sweep zeroes the entry of every cluster next to the node
    and leaves the others alone. *)
Lemma sweep_hash (s : sweep) (es : list edge) (c : nat) :
  get 0%Z (sw_hash (foldl step s es)) c =
  if decide (c ∈ map block_of es) then 0%Z else get 0%Z (sw_hash s) c.
Proof.
  revert s. induction es as [|e es IH]; intros s.
  - destruct (decide _) as [H|]; [by apply elem_of_nil in H|done].
  - change (foldl step s (e :: es)) with (foldl step (step s e) es).
    rewrite IH, select_hash, get_insert, map_cons.
    destruct (decide (c ∈ map block_of es)) as [Hin|Hnin].
    + rewrite decide_True; [done|]. by apply elem_of_cons; right.
    + destruct (decide (block_of e = c ∧ _)) as [[<- _]|Hne].
      * rewrite decide_True; [done|]. by apply elem_of_cons; left.
      * destruct (decide (c = block_of e)) as [->|Hc].
        -- rewrite decide_True by (by apply elem_of_cons; left).
           rewrite get_ge; [done|]. lia.
        -- rewrite decide_False; [done|]. by intros [?|?]%elem_of_cons.
Qed.

(** The block the sweep ends with is the one it started with or one that
    passed the capacity test. *)
Lemma sweep_admitted (s : sweep) (es : list edge) :
  max_block s = my_block
  ∨ (wrap width (get 0%Z cs (max_block s) + w) ≤ block_upperbound)%Z →
  max_block (foldl step s es) = my_block
  ∨ (wrap width (get 0%Z cs (max_block (foldl step s es)) + w)
     ≤ block_upperbound)%Z.
Proof.
  revert s. induction es as [|e es IH]; intros s Hs; simpl; [done|].
  apply IH. unfold step, select.
  destruct (improves _ _ _) as [better r]. simpl.
  destruct better; simpl; [|done].
  destruct (admissible _ _ _ _ _ _) eqn:Hadm; simpl; [|done].
  unfold admissible in Hadm. apply orb_true_iff in Hadm as [Hsz|Hown].
  - right. by apply Z.leb_le.
  - left. by apply Nat.eqb_eq.
Qed.

(** The block the sweep ends with is the one it started with or the block
    of one of the edges. *)
Lemma sweep_block_source (s : sweep) (es : list edge) :
  max_block (foldl step s es) = max_block s
  ∨ max_block (foldl step s es) ∈ map block_of es.
Proof.
  revert s. induction es as [|e es IH]; intros s; simpl; [by left|].
  destruct (IH (step s e)) as [->|Hin]; [|right; by apply elem_of_cons; right].
  unfold step, select. destruct (improves _ _ _) as [better r]. simpl.
  destruct (better && _); [right; by apply elem_of_cons; left|by left].
Qed.

End Sweeps.

(** ** One node *)

Lemma propagate_node_hash (width : nat) (G : graph_access)
    (block_upperbound : Z) (st : lp_state) (node c : nat) :
  get 0%Z (hash_map (propagate_node width G block_upperbound st node)) c =
  if decide (c ∈ neighbour_blocks G (cluster_id st) node) then 0%Z
  else get 0%Z (hash_map st) c.
Proof.
  unfold propagate_node, second_sweep, first_sweep, neighbour_blocks. simpl.
  rewrite sweep_hash. simpl. case_decide as Hc; [done|].
  by apply accumulate_other.
Qed.

Lemma propagate_node_hash_length (width : nat) (G : graph_access)
    (block_upperbound : Z) (st : lp_state) (node : nat) :
  length (hash_map (propagate_node width G block_upperbound st node))
  = length (hash_map st).
Proof.
  unfold propagate_node, second_sweep, first_sweep. simpl.
  rewrite sweep_length. simpl. apply accumulate_length.
Qed.

Lemma propagate_node_isolated (width : nat) (G : graph_access)
    (block_upperbound : Z) (st : lp_state) (node : nat) :
  out_edges G node = [] →
  cluster_id (propagate_node width G block_upperbound st node)
  = <[node := get 0 (cluster_id st) node]> (cluster_id st).
Proof. intros He. unfold propagate_node, second_sweep. by rewrite He. Qed.

(** ** Invariants of a run *)

Section Runs.
Variables (width : nat) (G : graph_access) (block_upperbound : Z)
          (order : list nat).
Variable P : lp_state → Prop.
Hypothesis P_start : ∀ st, P st → P (start_pass st).
Hypothesis P_node :
  ∀ st node, P st → P (propagate_node width G block_upperbound st node).

Lemma pass_prefix_S (k : nat) (st : lp_state) :
  pass_prefix width G block_upperbound order (S k) st =
  propagate_node width G block_upperbound
    (pass_prefix width G block_upperbound order k st) (get 0 order k).
Proof. unfold pass_prefix. by rewrite seq_S, foldl_app. Qed.

Lemma pass_prefix_invariant (k : nat) (st : lp_state) :
  P st → P (pass_prefix width G block_upperbound order k st).
Proof.
  intros Hst. induction k as [|k IH].
  - by apply P_start.
  - rewrite pass_prefix_S. by apply P_node.
Qed.

Lemma passes_invariant (j : nat) (st : lp_state) :
  P st → P (passes width G block_upperbound order j st).
Proof.
  intros Hst. induction j as [|j IH]; [done|].
  simpl. by apply pass_prefix_invariant.
Qed.

Lemma state_at_invariant (cid0 : list nat) (r : random_functions) (j k : nat) :
  P (initial_state width G cid0 r) →
  P (state_at width G block_upperbound cid0 order r j k).
Proof. intros H0. by apply pass_prefix_invariant, passes_invariant. Qed.

End Runs.

(** C7 (vote array reset): a visit leaves 0 in the [hash_map] entry of every
    cluster next to the visited node, which are the only entries the first
    sweep writes, and leaves every other entry as it was; so at every point
    between two visits of a run the whole array is zero. *)
Theorem hash_map_reset (width : nat) (G : graph_access) (block_upperbound : Z) :
  (∀ st node c,
     get 0%Z (hash_map (propagate_node width G block_upperbound st node)) c =
     if decide (c ∈ neighbour_blocks G (cluster_id st) node) then 0%Z
     else get 0%Z (hash_map st) c) ∧
  (∀ st node c,
     c ∉ neighbour_blocks G (cluster_id st) node →
     get 0%Z (first_sweep width G (cluster_id st) (hash_map st) node) c
     = get 0%Z (hash_map st) c) ∧
  (∀ cid0 order r j k,
     hash_map (state_at width G block_upperbound cid0 order r j k)
     = replicate (number_of_nodes G) 0%Z).
Proof.
  split; [apply propagate_node_hash|]. split.
  - intros st node c Hc. by apply accumulate_other.
  - intros cid0 order r j k.
    apply (state_at_invariant width G block_upperbound order
             (λ st, hash_map st = replicate (number_of_nodes G) 0%Z)).
    + done.
    + intros st node Hst. apply all_zero.
      * by rewrite propagate_node_hash_length, Hst, length_replicate.
      * intros c. rewrite propagate_node_hash. case_decide; [done|].
        rewrite Hst. unfold get.
        destruct (replicate _ _ !! c) as [x|] eqn:Hx; [|done].
        by apply lookup_replicate in Hx as [-> _].
    + apply initial_state_spec.
Qed.

(** C8 (no-neighbour stability): a node without out-edges has its own index
    as cluster id at every point of a run, whatever the order, and so after
    any number of passes, before compaction. *)
Theorem isolated_node_stays (width : nat) (G : graph_access)
    (block_upperbound : Z) (cid0 order : list nat) (r : random_functions)
    (u : nat) :
  u < number_of_nodes G → out_edges G u = [] →
  (∀ j k, get 0 (cluster_id
                   (state_at width G block_upperbound cid0 order r j k)) u = u) ∧
  (∀ cfg, get 0 (cluster_id
                   (propagated width cfg G block_upperbound cid0 order r)) u = u).
Proof.
  intros Hu He.
  assert (Hnode : ∀ st node, get 0 (cluster_id st) u = u →
            get 0 (cluster_id (propagate_node width G block_upperbound st node)) u = u).
  { intros st node Hst. destruct (decide (node = u)) as [->|Hne].
    - rewrite propagate_node_isolated, get_insert, Hst by done. by case_decide.
    - unfold propagate_node. simpl. by rewrite get_insert_ne. }
  assert (H0 : get 0 (cluster_id (initial_state width G cid0 r)) u = u).
  { destruct (initial_state_spec width G cid0 r) as (_ & -> & _). by apply get_seq. }
  split.
  - intros j k.
    by apply (state_at_invariant width G block_upperbound order
                (λ st, get 0 (cluster_id st) u = u)).
  - intros cfg. unfold propagated.
    by apply (passes_invariant width G block_upperbound order
                (λ st, get 0 (cluster_id st) u = u)).
Qed.

Lemma state_at_S (width : nat) (G : graph_access) (block_upperbound : Z)
    (cid0 order : list nat) (r : random_functions) (j k : nat) :
  k < number_of_nodes G →
  state_at width G block_upperbound cid0 order r j (S k) =
  propagate_node width G block_upperbound
    (state_at width G block_upperbound cid0 order r j k) (get 0 order k).
Proof.
  intros Hk. unfold state_at.
  rewrite !Nat.min_l by lia. apply pass_prefix_S.
Qed.

Lemma state_at_next_pass (width : nat) (G : graph_access) (block_upperbound : Z)
    (cid0 order : list nat) (r : random_functions) (j : nat) :
  state_at width G block_upperbound cid0 order r (S j) 0 =
  start_pass (state_at width G block_upperbound cid0 order r j (number_of_nodes G)).
Proof. unfold state_at. by rewrite Nat.min_id. Qed.

Lemma propagate_node_admits (width : nat) (G : graph_access)
    (block_upperbound : Z) (st : lp_state) (node : nat) :
  let st' := propagate_node width G block_upperbound st node in
  get 0 (cluster_id st') node ≠ get 0 (cluster_id st) node →
  (get 0%Z (cluster_sizes st') (get 0%nat (cluster_id st') node) ≤ block_upperbound)%Z.
Proof.
  unfold propagate_node. simpl.
  set (s := second_sweep _ _ _ _ _ _ _ _).
  set (my_block := get 0 (cluster_id st) node).
  set (w := getNodeWeight width G node).
  rewrite get_insert. case_decide as Hin; [|done]. intros Hmoved.
  assert (Hadm : max_block s = my_block
                 ∨ (wrap width (get 0%Z (cluster_sizes st) (max_block s) + w)
                    ≤ block_upperbound)%Z).
  { apply sweep_admitted. by left. }
  destruct Hadm as [?|Hadm]; [done|].
  unfold commit_sizes. rewrite get_insert, length_insert, get_insert_ne by done.
  case_decide; [done|].
  rewrite get_ge by lia. pose proof (wrap_nonneg width
    (get 0%Z (cluster_sizes st) (max_block s) + w)). lia.
Qed.

(** C1 (capacity on new admissions): when a visit moves a node into a
    cluster other than the one it was in, the size tracked for that cluster
    right after the move is at most [block_upperbound], from whatever state
    the visit starts and so at every visit of a run; and the capacity test
    always lets a node's own cluster through, whatever its size. *)
Theorem propagate_node_capacity (width : nat) (G : graph_access)
    (block_upperbound : Z) :
  (∀ st node,
     let st' := propagate_node width G block_upperbound st node in
     get 0 (cluster_id st') node ≠ get 0 (cluster_id st) node →
     (get 0%Z (cluster_sizes st') (get 0%nat (cluster_id st') node)
      ≤ block_upperbound)%Z) ∧
  (∀ cid0 order r j k,
     k < number_of_nodes G →
     let st := state_at width G block_upperbound cid0 order r j k in
     let st' := state_at width G block_upperbound cid0 order r j (S k) in
     let u := get 0 order k in
     get 0 (cluster_id st') u ≠ get 0 (cluster_id st) u →
     (get 0%Z (cluster_sizes st') (get 0%nat (cluster_id st') u)
      ≤ block_upperbound)%Z) ∧
  (∀ st node,
     admissible width block_upperbound (cluster_sizes st)
       (getNodeWeight width G node)
       (get 0 (cluster_id st) node) (get 0 (cluster_id st) node) = true).
Proof.
  split; [apply propagate_node_admits|]. split.
  - intros cid0 order r j k Hk. cbv zeta. rewrite state_at_S by done.
    apply propagate_node_admits.
  - intros st node. unfold admissible. rewrite Nat.eqb_refl. apply orb_true_r.
Qed.

(** ** Keeping the cluster *)

(** The sweep of a visit without a positive vote that passes the capacity
    test: [max_value] stays 0, so that a block is taken exactly at a draw
    that comes up true for a block that passes the test.  [hm] is the vote
    array the sweep started from. *)
Lemma sweep_ties (width : nat) (block_upperbound : Z) (cs : list Z)
    (cid : list nat) (w : Z) (my_block : nat) (hm : list Z) (es : list edge) :
  ∀ s : sweep,
  (∀ c, c ∈ map (λ e, get 0 cid (getEdgeTarget e)) es → (0 < get 0%Z hm c)%Z →
        admissible width block_upperbound cs w my_block c = false) →
  (∀ c, get 0%Z (sw_hash s) c = get 0%Z hm c ∨ get 0%Z (sw_hash s) c = 0%Z) →
  max_value s = 0%Z →
  max_block (foldl (select width block_upperbound cs cid w my_block) s es) =
  foldl (λ b t, if t.2 && admissible width block_upperbound cs w my_block t.1
                then t.1 else b)
        (max_block s)
        (ties_from width block_upperbound cs cid w my_block s es).
Proof.
  induction es as [|e es IH]; intros s Hvote Hhash Hmax; [done|].
  change (foldl ?f s (e :: es)) with (foldl f (f s e) es).
  cbn [ties_from]. rewrite foldl_app.
  set (s1 := select width block_upperbound cs cid w my_block s e).
  set (upd := λ (b : nat) (t : nat * bool),
                if t.2 && admissible width block_upperbound cs w my_block t.1
                then t.1 else b).
  assert (Hs1 : max_value s1 = 0%Z ∧
                max_block s1 = foldl upd (max_block s) (tie_of cid s e)).
  { subst s1 upd. unfold select, improves, tie_of. rewrite Hmax.
    set (c := get 0 cid (getEdgeTarget e)).
    set (cur_value := get 0%Z (sw_hash s) c).
    destruct (0 <? cur_value)%Z eqn:Hpos; simpl.
    - apply Z.ltb_lt in Hpos. rewrite (Hvote c); [done| |].
      + rewrite map_cons. apply elem_of_cons; by left.
      + destruct (Hhash c) as [<-|Hz]; [done|]. fold cur_value in Hz. lia.
    - destruct (cur_value =? 0)%Z eqn:Hzero; simpl; [|done].
      apply Z.eqb_eq in Hzero.
      destruct (flips (sw_rnd s) (drawn (sw_rnd s)) &&
                admissible width block_upperbound cs w my_block c); done. }
  destruct Hs1 as [Hv1 Hb1]. rewrite IH, Hb1; try done.
  - intros c Hc. apply Hvote. rewrite map_cons. apply elem_of_cons; by right.
  - intros c. subst s1. rewrite select_hash, get_insert.
    case_decide; [by right|done].
Qed.

Lemma last_tie_default {A : Type} (won : A → bool) (blk : A → nat)
    (ts : list A) (b : nat) (acc : option nat) :
  default b (foldl (λ acc t, if won t then Some (blk t) else acc) acc ts)
  = foldl (λ b t, if won t then blk t else b) (default b acc) ts.
Proof.
  revert acc. induction ts as [|t ts IH]; intros acc; [done|].
  simpl. rewrite IH. by destruct (won t).
Qed.

Lemma visit_without_vote (width : nat) (G : graph_access)
    (block_upperbound : Z) (st : lp_state) (node : nat) :
  no_eligible_vote width G block_upperbound st node = true →
  max_block (second_sweep width G block_upperbound (cluster_sizes st)
               (cluster_id st)
               (first_sweep width G (cluster_id st) (hash_map st) node)
               (rnd st) node)
  = default (get 0 (cluster_id st) node)
            (last_eligible_tie width G block_upperbound st node).
Proof.
  intros Hvote. unfold second_sweep, last_eligible_tie, ties_drawn.
  rewrite (last_tie_default (tie_won width G block_upperbound st node) fst).
  rewrite (sweep_ties width block_upperbound (cluster_sizes st) (cluster_id st)
             (getNodeWeight width G node) (get 0 (cluster_id st) node)
             (first_sweep width G (cluster_id st) (hash_map st) node));
    [done| |by left|done].
  intros c Hc Hpos. unfold no_eligible_vote in Hvote.
  rewrite forallb_forall in Hvote.
  specialize (Hvote c). unfold neighbour_blocks in Hvote.
  apply list_elem_of_In, Hvote, negb_true_iff, andb_false_iff in Hc as [Hc|Hc];
    [|done].
  apply Z.ltb_ge in Hc. lia.
Qed.

(** C3, as the code has it: when no cluster next to the node has a positive
    accumulated vote that passes the capacity test, the node ends the visit
    in the cluster of the last draw of the coin, among the draws of that
    visit, that came up true for a cluster that passes the capacity test,
    and in its own cluster when there is no such draw.  So the node keeps
    its cluster when there is no such draw or the last one is for its own
    cluster, and only then. *)
Theorem visit_without_eligible_vote (width : nat) (G : graph_access)
    (block_upperbound : Z) (st : lp_state) (node : nat) :
  no_eligible_vote width G block_upperbound st node = true →
  let st' := propagate_node width G block_upperbound st node in
  let own := get 0 (cluster_id st) node in
  let tie := last_eligible_tie width G block_upperbound st node in
  (tie = None ∨ tie = Some own → get 0 (cluster_id st') node = own) ∧
  (node < length (cluster_id st) →
   get 0 (cluster_id st') node = default own tie).
Proof.
  intros Hvote st' own tie.
  pose proof (visit_without_vote width G block_upperbound st node Hvote) as Hmax.
  fold own tie in Hmax.
  assert (Hnew : get 0 (cluster_id st') node =
                 if decide (node < length (cluster_id st)) then default own tie
                 else own).
  { subst st'. unfold propagate_node. simpl. rewrite get_insert, Hmax.
    case_decide as Hin.
    - rewrite decide_True; [done|]. by destruct Hin.
    - rewrite decide_False; [done|]. intros Hlt. by apply Hin. }
  split.
  - intros Htie. rewrite Hnew. case_decide; [|done].
    by destruct Htie as [->| ->].
  - intros Hlt. by rewrite Hnew, decide_True.
Qed.

(** C3, as stated, fails: the edge of [zero_edge_pair] gives cluster 1 the
    vote 0, no vote exceeds 0, and yet node 0 moves to cluster 1 when the
    coin comes up true on the tie with the initial value 0. *)
Lemma zero_vote_tie_moves_node :
  let st := initial_state 32 zero_edge_pair [] heads in
  no_eligible_vote 32 zero_edge_pair 2 st 0 = true ∧
  get 0 (cluster_id st) 0 = 0 ∧
  get 0 (cluster_id (propagate_node 32 zero_edge_pair 2 st 0)) 0 = 1.
Proof. vm_compute. done. Qed.

(** On the triangle, after node 1 has joined cluster 2: cluster 2 is full,
    node 0 draws the coin for it once, the coin comes up true, and node 0
    keeps its cluster. *)
Lemma visit_without_eligible_vote_witness :
  let st := state_at 32 triangle 2 [] [1; 0; 2] heads 0 1 in
  let st' := propagate_node 32 triangle 2 st 0 in
  no_eligible_vote 32 triangle 2 st 0 = true ∧
  ties_drawn 32 triangle 2 st 0 = [(2, true)] ∧
  last_eligible_tie 32 triangle 2 st 0 = None ∧
  (last_eligible_tie 32 triangle 2 st 0 = None
   ∨ last_eligible_tie 32 triangle 2 st 0 = Some (get 0 (cluster_id st) 0) →
   get 0 (cluster_id st') 0 = get 0 (cluster_id st) 0) ∧
  (0 < length (cluster_id st) →
   get 0 (cluster_id st') 0
   = default (get 0 (cluster_id st) 0) (last_eligible_tie 32 triangle 2 st 0)).
Proof.
  split; [by vm_compute|]. split; [by vm_compute|]. split; [by vm_compute|].
  apply (visit_without_eligible_vote 32 triangle 2). by vm_compute.
Defined.

(** The last draw decides.  On [zero_edge_pair] the one draw is for cluster
    1 and comes up true: node 0 moves.  On [zero_edge_and_loop] a second
    draw, for the node's own cluster, comes up true after it: node 0
    stays. *)
Example last_tie_decides :
  let st := initial_state 32 zero_edge_pair [] heads in
  let st2 := initial_state 32 zero_edge_and_loop [] heads in
  last_eligible_tie 32 zero_edge_pair 2 st 0 = Some 1 ∧
  get 0 (cluster_id (propagate_node 32 zero_edge_pair 2 st 0)) 0 = 1 ∧
  ties_drawn 32 zero_edge_and_loop 2 st2 0 = [(1, true); (0, true)] ∧
  last_eligible_tie 32 zero_edge_and_loop 2 st2 0 = Some 0 ∧
  get 0 (cluster_id (propagate_node 32 zero_edge_and_loop 2 st2 0)) 0 = 0.
Proof. by vm_compute. Qed.

(** ** Sums *)

Lemma sumZ_app (v1 v2 : list Z) : sumZ (v1 ++ v2) = (sumZ v1 + sumZ v2)%Z.
Proof. induction v1 as [|x v1 IH]; simpl; [done|]. rewrite IH. lia. Qed.

Lemma sumZ_insert (v : list Z) (i : nat) (x : Z) :
  i < length v → sumZ (<[i:=x]> v) = (sumZ v - get 0%Z v i + x)%Z.
Proof.
  revert i. induction v as [|y v IH]; intros [|i] Hi; simpl in *; try lia.
  - unfold get. simpl. lia.
  - rewrite IH by lia. unfold get. simpl. lia.
Qed.

Lemma sumZ_seq_S (f : nat → Z) (n : nat) :
  sumZ (map f (seq 0 (S n))) = (sumZ (map f (seq 0 n)) + f n)%Z.
Proof. rewrite seq_S, map_app, sumZ_app. simpl. lia. Qed.

Lemma sumZ_seq_ext (f g : nat → Z) (n : nat) :
  (∀ v, v < n → f v = g v) → sumZ (map f (seq 0 n)) = sumZ (map g (seq 0 n)).
Proof.
  induction n as [|n IH]; intros Hfg; [done|].
  rewrite !sumZ_seq_S, IH, Hfg; [done|lia|]. intros v Hv. apply Hfg. lia.
Qed.

Lemma sumZ_seq_le (f g : nat → Z) (n : nat) :
  (∀ v, v < n → (0 ≤ f v ≤ g v)%Z) →
  (0 ≤ sumZ (map f (seq 0 n)) ≤ sumZ (map g (seq 0 n)))%Z.
Proof.
  induction n as [|n IH]; intros Hfg; [simpl; lia|].
  rewrite !sumZ_seq_S. specialize (Hfg n ltac:(lia)) as Hn.
  destruct IH; [|lia]. intros v Hv. apply Hfg. lia.
Qed.

(** Two summands that differ at one index only. *)
Lemma sumZ_seq_update (f g : nat → Z) (n u : nat) :
  u < n → (∀ v, v ≠ u → f v = g v) →
  sumZ (map g (seq 0 n)) = (sumZ (map f (seq 0 n)) - f u + g u)%Z.
Proof.
  induction n as [|n IH]; intros Hu Hfg; [lia|].
  rewrite !sumZ_seq_S. destruct (decide (u = n)) as [->|Hne].
  - rewrite (sumZ_seq_ext f g n); [lia|]. intros v Hv. apply Hfg. lia.
  - rewrite IH, (Hfg n) by (done || lia). lia.
Qed.

(** ** Cluster weights *)

Section Weights.
Variables (width : nat) (G : graph_access).

Let N := number_of_nodes G.
Let weight := getNodeWeight width G.

Lemma member_weight_bounds (cid : list nat) (c : nat) :
  (0 ≤ member_weight width G cid c ≤ total_node_weight width G)%Z.
Proof.
  unfold member_weight, total_node_weight. apply sumZ_seq_le.
  intros v _. pose proof (wrap_nonneg width (node_weight (node_at G v))).
  unfold getNodeWeight. case_decide; lia.
Qed.

Lemma member_weight_singletons (c : nat) :
  c < N → member_weight width G (seq 0 N) c = weight c.
Proof.
  intros Hc. unfold member_weight. fold N.
  rewrite (sumZ_seq_ext _ (λ v, if decide (v = c) then weight v else 0%Z)).
  2: { intros v Hv. by rewrite get_seq. }
  rewrite (sumZ_seq_update (λ _, 0%Z) _ N c Hc).
  2: { intros v Hv. by rewrite decide_False. }
  rewrite decide_True by done.
  assert (sumZ (map (λ _ : nat, 0%Z) (seq 0 N)) = 0%Z) as ->; [|lia].
  clear. induction N as [|n IH]; [done|]. rewrite sumZ_seq_S, IH. lia.
Qed.

(** Moving [u] to [new_block] takes its weight out of its old cluster and
    puts it into the new one. *)
Lemma member_weight_move (cid : list nat) (u new_block c : nat) :
  u < N → length cid = N →
  member_weight width G (<[u := new_block]> cid) c =
  (member_weight width G cid c
   - (if decide (get 0%nat cid u = c) then weight u else 0)
   + (if decide (new_block = c) then weight u else 0))%Z.
Proof.
  intros Hu Hlen. unfold member_weight. fold N.
  rewrite (sumZ_seq_update
             (λ v, if decide (get 0 cid v = c) then getNodeWeight width G v else 0%Z)
             _ N u Hu).
  - rewrite get_insert, (decide_True (P := u = u ∧ u < length cid)) by (split; [done|lia]).
    done.
  - intros v Hv. by rewrite get_insert_ne.
Qed.

End Weights.

(** ** Weight conservation *)


Lemma insert_get_id {A : Type} (d : A) (v : list A) (i : nat) :
  <[i := get d v i]> v = v.
Proof.
  destruct (v !! i) as [x|] eqn:Hx.
  - rewrite (get_lookup _ _ _ _ Hx). by apply list_insert_id.
  - apply list_insert_ge. by apply lookup_ge_None.
Qed.

Lemma wrap_sub_add (width : nat) (x w : Z) :
  wrap width (wrap width (x - w) + w) = wrap width x.
Proof.
  unfold wrap. rewrite Zplus_mod_idemp_l. f_equal. lia.
Qed.

(** A node that stays leaves the size tracker as it was. *)
Lemma commit_sizes_same (width : nat) (cs : list Z) (w : Z) (b : nat) :
  (b < length cs → (0 ≤ get 0%Z cs b < modulus width)%Z) →
  commit_sizes width cs w b b = cs.
Proof.
  intros Hb. unfold commit_sizes.
  destruct (decide (b < length cs)) as [Hlt|Hge].
  - rewrite get_insert, decide_True by done.
    rewrite list_insert_insert_eq, wrap_sub_add, wrap_small by auto.
    apply insert_get_id.
  - rewrite !list_insert_ge; [done|lia|]. rewrite list_insert_ge; lia.
Qed.

Lemma out_edges_node (G : graph_access) (node : nat) :
  out_edges G node ≠ [] → node < number_of_nodes G.
Proof.
  intros He. destruct (decide (node < number_of_nodes G)) as [|Hge]; [done|].
  exfalso. apply He. unfold out_edges, node_at. rewrite get_ge; [done|].
  unfold number_of_nodes in Hge. lia.
Qed.

Lemma sizes_inv_block (width : nat) (G : graph_access) (st : lp_state) (t : nat) :
  sizes_inv width G st → 0 < number_of_nodes G →
  get 0 (cluster_id st) t < number_of_nodes G.
Proof.
  intros Hinv HN. destruct (decide (t < number_of_nodes G)) as [Ht|Ht].
  - by apply (si_ids_range _ _ _ Hinv).
  - rewrite get_ge; [done|]. rewrite (si_ids_length _ _ _ Hinv). lia.
Qed.

Lemma sizes_inv_node (width : nat) (G : graph_access) (block_upperbound : Z)
    (st : lp_state) (node : nat) :
  (total_node_weight width G < modulus width)%Z →
  sizes_inv width G st →
  sizes_inv width G (propagate_node width G block_upperbound st node).
Proof.
  intros Htotal Hinv.
  pose proof Hinv as [Hcsl Hidl Hrange Hsizes Hsum].
  unfold propagate_node.
  set (s := second_sweep _ _ _ _ _ _ _ _).
  set (my_block := get 0 (cluster_id st) node).
  set (w := getNodeWeight width G node).
  destruct (decide (max_block s = my_block)) as [Hsame|Hmoved].
  - (* the node stays *)
    rewrite Hsame. subst my_block.
    rewrite insert_get_id, commit_sizes_same.
    + by split.
    + intros Hlt. rewrite Hsizes by lia.
      pose proof (member_weight_bounds width G (cluster_id st)
                    (get 0 (cluster_id st) node)). lia.
  - (* the node moves *)
    assert (Hsrc : max_block s ∈ neighbour_blocks G (cluster_id st) node).
    { destruct (sweep_block_source width block_upperbound (cluster_sizes st)
                  (cluster_id st) w my_block
                  {| sw_hash := first_sweep width G (cluster_id st) (hash_map st) node;
                     max_value := 0; max_block := my_block; sw_rnd := rnd st |}
                  (out_edges G node)) as [Heq|Hin]; [done|exact Hin]. }
    assert (Hnode : node < number_of_nodes G).
    { apply out_edges_node. intros He. unfold neighbour_blocks in Hsrc.
      rewrite He in Hsrc. by apply elem_of_nil in Hsrc. }
    assert (Hmy : my_block < number_of_nodes G) by by apply Hrange.
    assert (Hnew : max_block s < number_of_nodes G).
    { unfold neighbour_blocks in Hsrc.
      apply list_elem_of_In, in_map_iff in Hsrc as (e & <- & _).
      apply (sizes_inv_block width G st); [done|lia]. }
    pose proof (member_weight_move width G (cluster_id st) node (max_block s)
                  my_block Hnode Hidl) as Hold.
    pose proof (member_weight_move width G (cluster_id st) node (max_block s)
                  (max_block s) Hnode Hidl) as Hinto.
    fold my_block w in Hold, Hinto.
    rewrite decide_True, decide_False in Hold by done.
    rewrite decide_False, decide_True in Hinto by done.
    pose proof (member_weight_bounds width G
                  (<[node := max_block s]> (cluster_id st)) my_block) as Hb1.
    pose proof (member_weight_bounds width G
                  (<[node := max_block s]> (cluster_id st)) (max_block s)) as Hb2.
    pose proof (member_weight_bounds width G (cluster_id st) my_block) as Hb3.
    pose proof (member_weight_bounds width G (cluster_id st) (max_block s)) as Hb4.
    pose proof (wrap_nonneg width (node_weight (node_at G node))) as Hw.
    fold (getNodeWeight width G node) in Hw. fold w in Hw.
    assert (Hcs : commit_sizes width (cluster_sizes st) w my_block (max_block s)
                  = <[max_block s := (member_weight width G (cluster_id st) (max_block s) + w)%Z]>
                      (<[my_block := (member_weight width G (cluster_id st) my_block - w)%Z]>
                         (cluster_sizes st))).
    { unfold commit_sizes.
      rewrite get_insert_ne, !Hsizes by done.
      rewrite !wrap_small by lia. done. }
    simpl. rewrite Hcs. split; simpl.
    + by rewrite !length_insert.
    + by rewrite length_insert.
    + intros v Hv. rewrite get_insert. case_decide; [done|by apply Hrange].
    + intros c Hc. rewrite get_insert, length_insert.
      rewrite (member_weight_move width G (cluster_id st) node (max_block s) c Hnode Hidl).
      fold my_block w.
      destruct (decide (max_block s = c)) as [<-|Hne].
      * rewrite decide_True by (split; [done|lia]).
        rewrite decide_False by done. lia.
      * rewrite decide_False by (intros [? _]; done).
        rewrite get_insert. destruct (decide (my_block = c)) as [<-|Hne'].
        -- rewrite decide_True by (split; [done|lia]). lia.
        -- rewrite decide_False by (intros [? _]; done).
           rewrite Hsizes by done. lia.
    + rewrite sumZ_insert by (rewrite length_insert; lia).
      rewrite get_insert_ne by done.
      rewrite sumZ_insert by lia.
      rewrite !Hsizes by done. lia.
Qed.

Lemma sizes_inv_initial (width : nat) (G : graph_access) (cid0 : list nat)
    (r : random_functions) :
  sizes_inv width G (initial_state width G cid0 r).
Proof.
  destruct (initial_state_spec width G cid0 r) as (_ & Hcid & Hcs & _).
  split; rewrite ?Hcid, ?Hcs.
  - by rewrite length_map, length_seq.
  - by rewrite length_seq.
  - intros v Hv. by rewrite get_seq.
  - intros c Hc. rewrite member_weight_singletons by done.
    apply get_lookup. rewrite list_lookup_fmap, lookup_seq_lt by done. done.
  - done.
Qed.

(** C2 (weight conservation): when the weight of the graph fits a
    [NodeWeight], the tracked cluster sizes add up to the weight of the
    graph after initialisation and after every commit of every pass. *)
Theorem weight_conservation (width : nat) (G : graph_access)
    (block_upperbound : Z) (cid0 order : list nat) (r : random_functions)
    (j k : nat) :
  (total_node_weight width G < modulus width)%Z →
  sumZ (cluster_sizes (initial_state width G cid0 r)) = total_node_weight width G ∧
  sumZ (cluster_sizes (state_at width G block_upperbound cid0 order r j k))
  = total_node_weight width G.
Proof.
  intros Htotal. split.
  - apply sizes_inv_initial.
  - apply (si_sum width G).
    apply (state_at_invariant width G block_upperbound order (sizes_inv width G)).
    + intros st [? ? ? ? ?]. by split.
    + intros st node. by apply sizes_inv_node.
    + apply sizes_inv_initial.
Qed.

(** * The properties at concrete inputs *)

(** C1 on the path: node 0 moves into cluster 1, which then weighs 2. *)
Lemma propagate_node_capacity_witness :
  let st := initial_state 32 path4 [] tails in
  let st' := propagate_node 32 path4 2 st 0 in
  get 0 (cluster_id st') 0 ≠ get 0 (cluster_id st) 0 ∧
  (get 0%Z (cluster_sizes st') (get 0%nat (cluster_id st') 0) ≤ 2)%Z.
Proof.
  split; [by_evaluation|].
  apply (proj1 (propagate_node_capacity 32 path4 2)). by_evaluation.
Defined.

(** C2 on the path, two nodes into the first pass. *)
Lemma weight_conservation_witness :
  (total_node_weight 32 path4 < modulus 32)%Z ∧
  sumZ (cluster_sizes (initial_state 32 path4 [] tails))
  = total_node_weight 32 path4 ∧
  sumZ (cluster_sizes (state_at 32 path4 2 [] [0; 1; 2; 3] tails 0 2))
  = total_node_weight 32 path4.
Proof.
  split; [by_evaluation|].
  apply (weight_conservation 32 path4 2 [] [0; 1; 2; 3] tails 0 2). by_evaluation.
Defined.

(** C5 on the vector [3; 3; 1; 3]. *)
Lemma remap_cluster_ids_dense_witness :
  length [3; 3; 1; 3] = number_of_nodes path4 ∧
  remap_cluster_ids path4 [3; 3; 1; 3] false = (path4, [0; 0; 1; 0], 2) ∧
  (∀ x, x ∈ [0; 0; 1; 0] ↔ x < 2) ∧
  2 = size (list_to_set [3; 3; 1; 3] : gset nat).
Proof.
  split; [done|]. split; [by_evaluation|].
  apply (remap_cluster_ids_dense path4 path4 [3; 3; 1; 3] [0; 0; 1; 0] false 2);
    by_evaluation.
Defined.

(** C6 on the vector [3; 3; 1; 3], nodes 0 and 1. *)
Lemma remap_cluster_ids_grouping_witness :
  length [3; 3; 1; 3] = number_of_nodes path4 ∧
  remap_cluster_ids path4 [3; 3; 1; 3] false = (path4, [0; 0; 1; 0], 2) ∧
  0 < number_of_nodes path4 ∧ 1 < number_of_nodes path4 ∧
  (get 0 [3; 3; 1; 3] 0 = get 0 [3; 3; 1; 3] 1
   ↔ get 0 [0; 0; 1; 0] 0 = get 0 [0; 0; 1; 0] 1).
Proof.
  split; [done|]. split; [by_evaluation|].
  split; [by_evaluation|]. split; [by_evaluation|].
  apply (remap_cluster_ids_grouping path4 path4 [3; 3; 1; 3] [0; 0; 1; 0] false 2 0 1);
    by_evaluation.
Defined.

(** C10 on the vector [3; 3; 1; 3]. *)
Lemma remap_cluster_ids_bounded_witness :
  length [3; 3; 1; 3] = number_of_nodes path4 ∧
  remap_cluster_ids path4 [3; 3; 1; 3] false = (path4, [0; 0; 1; 0], 2) ∧
  (∀ u, u < number_of_nodes path4 → get 0 [0; 0; 1; 0] u ≤ u) ∧
  (0 < number_of_nodes path4 → get 0 [0; 0; 1; 0] 0 = 0) ∧
  2 ≤ number_of_nodes path4.
Proof.
  split; [done|]. split; [by_evaluation|].
  apply (remap_cluster_ids_bounded path4 path4 [3; 3; 1; 3] [0; 0; 1; 0] false 2);
    by_evaluation.
Defined.

(** C8 on [pair_and_loner], whose node 2 has no edge. *)
Lemma isolated_node_stays_witness :
  2 < number_of_nodes pair_and_loner ∧ out_edges pair_and_loner 2 = [] ∧
  (∀ j k, get 0 (cluster_id
                   (state_at 32 pair_and_loner 3 [] [2; 0; 1] heads j k)) 2 = 2) ∧
  (∀ cfg, get 0 (cluster_id
                   (propagated 32 cfg pair_and_loner 3 [] [2; 0; 1] heads)) 2 = 2).
Proof.
  split; [by_evaluation|]. split; [done|].
  apply (isolated_node_stays 32 pair_and_loner 3 [] [2; 0; 1] heads 2);
    by_evaluation.
Defined.

(** ** Runs on the path 0 - 1 - 2 - 3 *)

(** One pass in index order with capacity 2, the coin always false. *)
Example path4_one_pass :
  (label_propagation 32 false {| label_iterations := 1 |} path4 2 [] [0; 1; 2; 3]
     tails).1.2 = [0; 0; 1; 1] ∧
  (label_propagation 32 false {| label_iterations := 1 |} path4 2 [] [0; 1; 2; 3]
     tails).2 = 2.
Proof. by_evaluation. Qed.

(** With a capacity of the whole weight the path ends as one cluster. *)
Example path4_unbounded :
  (label_propagation 32 false {| label_iterations := 20 |} path4 4 [] [0; 1; 2; 3]
     heads).1.2 = [0; 0; 0; 0] ∧
  (label_propagation 32 false {| label_iterations := 20 |} path4 4 [] [0; 1; 2; 3]
     heads).2 = 1.
Proof. by_evaluation. Qed.

(** With capacity 0 every cluster is over capacity from the start: no node
    is admitted anywhere, and every node stays where it is. *)
Example path4_over_capacity :
  let st := initial_state 32 path4 [] heads in
  let st' := propagate_node 32 path4 0 st 1 in
  (0 < get 0 (cluster_sizes st) 1)%Z ∧ cluster_id st' = cluster_id st ∧
  cluster_sizes st' = cluster_sizes st.
Proof. by_evaluation. Qed.

(** Write-back: labels and count land on the graph on request only. *)
Example path4_write_back :
  let '(G', cid, k) := remap_cluster_ids path4 [3; 3; 1; 3] true in
  map partition_index (nodes G') = [0; 0; 1; 0] ∧ partition_count G' = 2 ∧
  cid = [0; 0; 1; 0] ∧ k = 2 ∧
  (remap_cluster_ids path4 [3; 3; 1; 3] false).1.1 = path4.
Proof. by_evaluation. Qed.

(** * Further properties of [remap_cluster_ids] *)

Lemma remap_inv_values (cid : list nat) (s : remap_state) (x : nat) :
  remap_inv cid (length cid) s → x ∈ remapped s ↔ x < cur_no_clusters s.
Proof.
  intros Hinv. split.
  - intros [i Hi]%list_elem_of_lookup.
    assert (i < length cid) as Hlt.
    { rewrite <- (ri_length _ _ _ Hinv). by eapply lookup_lt_Some. }
    pose proof (remap_inv_get _ _ _ Hinv Hlt) as Hm.
    rewrite (get_lookup 0 _ _ _ Hi) in Hm.
    by apply (ri_seen _ _ _ Hinv) in Hm as [? _].
  - intros Hx. destruct (ri_onto _ _ _ Hinv x Hx) as [c Hc].
    destruct (ri_seen _ _ _ Hinv c x Hc) as (_ & (i & Hi & Hci) & _).
    destruct (ri_done _ _ _ Hinv i c Hi Hci) as (v & Hv & Hr).
    apply list_elem_of_lookup. exists i. congruence.
Qed.

(** After [n] nodes the ids below the counter all stand among the first
    [n] entries, and those entries are numbered by first appearance. *)
Lemma remap_loop_order (cid : list nat) (n : nat) :
  n ≤ length cid →
  (∀ y, y < cur_no_clusters (remap_loop cid n) →
        ∃ i, i < n ∧ remapped (remap_loop cid n) !! i = Some y) ∧
  (∀ i x y, i < n → remapped (remap_loop cid n) !! i = Some x → y < x →
            ∃ i', i' < i ∧ remapped (remap_loop cid n) !! i' = Some y).
Proof.
  induction n as [|n IH]; intros Hn.
  - split; [simpl; lia|]. intros; lia.
  - destruct IH as [IHall IHord]; [lia|].
    pose proof (remap_loop_inv cid n ltac:(lia)) as Hinv.
    rewrite remap_loop_S.
    set (s := remap_loop cid n) in *.
    destruct (lookup_lt_is_Some_2 cid n ltac:(lia)) as [c Hc].
    assert (Hcur : get 0 (remapped s) n = c).
    { apply get_lookup. by rewrite (ri_rest _ _ _ Hinv). }
    assert (Hlen : n < length (remapped s)) by (rewrite (ri_length _ _ _ Hinv); lia).
    assert (Hnew : ∃ v, remapped (remap_node s n) = <[n := v]> (remapped s) ∧
                        (v < cur_no_clusters s ∧
                         cur_no_clusters (remap_node s n) = cur_no_clusters s
                         ∨ v = cur_no_clusters s ∧
                           cur_no_clusters (remap_node s n) = S (cur_no_clusters s))).
    { unfold remap_node. rewrite Hcur. case_bool_decide as Hfresh; simpl.
      - exists (cur_no_clusters s). rewrite lookup_insert_eq. simpl.
        split; [done|]. by right.
      - destruct (remap s !! c) as [v|] eqn:Hv; [|done].
        exists v. split; [done|]. left.
        split; [|done]. by apply (ri_seen _ _ _ Hinv) in Hv as [? _]. }
    destruct Hnew as (v & -> & Hv).
    assert (Hbelow : ∀ y, y < v → ∃ i, i < n ∧ <[n := v]> (remapped s) !! i = Some y).
    { intros y Hy. destruct (IHall y) as (i & Hi & Hiy); [lia|].
      exists i. split; [done|]. by rewrite list_lookup_insert_ne by lia. }
    split.
    + intros y Hy. destruct (decide (y = v)) as [->|Hne].
      * exists n. split; [lia|]. by apply list_lookup_insert_eq.
      * destruct (IHall y) as (i & Hi & Hiy); [lia|].
        exists i. split; [lia|]. by rewrite list_lookup_insert_ne by lia.
    + intros i x y Hi Hx Hy. destruct (decide (i = n)) as [->|Hne].
      * rewrite list_lookup_insert_eq in Hx by done. injection Hx as <-.
        by apply Hbelow.
      * rewrite list_lookup_insert_ne in Hx by done.
        destruct (IHord i x y) as (i' & Hi' & Hy'); [lia|done|done|].
        exists i'. split; [done|]. by rewrite list_lookup_insert_ne by lia.
Qed.

(** X1 (numbering by first appearance): in the vector [remap_cluster_ids]
    returns, whatever dense id stands at a node, every smaller dense id
    stands at an earlier node; the clusters are numbered in the order in
    which the node index meets them. *)
Theorem remap_cluster_ids_first_appearance (G G' : graph_access)
    (cid cid' : list nat) (apply_to_graph : bool) (k : nat) :
  length cid = number_of_nodes G →
  remap_cluster_ids G cid apply_to_graph = (G', cid', k) →
  first_appearance_order cid'.
Proof.
  intros Hlen Heq. unfold remap_cluster_ids in Heq.
  injection Heq as _ <- _.
  destruct (remap_loop_order cid (number_of_nodes G)) as [_ Hord]; [lia|].
  intros i x y Hx Hy. apply (Hord i x y); [|done..].
  apply lookup_lt_Some in Hx.
  pose proof (ri_length _ _ _ (remap_loop_inv cid (number_of_nodes G) ltac:(lia))).
  lia.
Qed.

(** Remapping a vector that is numbered by first appearance changes
    nothing: every id keeps its number. *)
Lemma remap_loop_canonical (v : list nat) (n : nat) :
  first_appearance_order v → n ≤ length v →
  remapped (remap_loop v n) = v ∧
  (∀ c, remap (remap_loop v n) !! c =
        if decide (c < cur_no_clusters (remap_loop v n)) then Some c else None) ∧
  (∀ c, c < cur_no_clusters (remap_loop v n) ↔ ∃ i, i < n ∧ v !! i = Some c).
Proof.
  intros Hord. induction n as [|n IH]; intros Hn.
  - split; [done|]. split; [done|]. intros c. simpl. split; [lia|].
    intros (i & ? & _). lia.
  - destruct IH as (Hr & Hm & Hk); [lia|].
    rewrite remap_loop_S. set (s := remap_loop v n) in *.
    destruct (lookup_lt_is_Some_2 v n ltac:(lia)) as [c Hc].
    unfold remap_node. rewrite Hr, (get_lookup 0 _ _ _ Hc), Hm.
    destruct (decide (c < cur_no_clusters s)) as [Hlt|Hge].
    + rewrite bool_decide_eq_false_2 by done. simpl.
      rewrite (Hm c), decide_True by done. simpl.
      split; [by apply list_insert_id|]. split; [done|].
      intros c'. rewrite Hk. split.
      * intros (i & Hi & Hic). exists i. split; [lia|done].
      * intros (i & Hi & Hic). destruct (decide (i = n)) as [->|Hne].
        -- assert (c' = c) as -> by congruence. by apply Hk.
        -- exists i. split; [lia|done].
    + assert (c = cur_no_clusters s) as Hck.
      { destruct (decide (c = cur_no_clusters s)) as [|Hne]; [done|].
        destruct (Hord n c (cur_no_clusters s) Hc ltac:(lia)) as (i & Hi & Hic).
        assert (cur_no_clusters s < cur_no_clusters s); [|lia].
        apply Hk. by exists i. }
      rewrite bool_decide_eq_true_2 by done. simpl.
      rewrite lookup_insert_eq. simpl. rewrite <- Hck.
      split; [by apply list_insert_id|]. split.
      * intros c'. destruct (decide (c = c')) as [<-|Hne].
        -- rewrite lookup_insert_eq, decide_True; [done|lia].
        -- rewrite lookup_insert_ne, Hm by done. rewrite <- Hck.
           repeat case_decide; try done; lia.
      * intros c'. split.
        -- intros Hc'. destruct (decide (c' = c)) as [->|Hne].
           ++ by exists n; split; [lia|].
           ++ destruct (proj1 (Hk c')) as (i & Hi & Hic); [lia|].
              exists i. split; [lia|done].
        -- intros (i & Hi & Hic). destruct (decide (i = n)) as [->|Hne].
           ++ assert (c' = c) as -> by congruence. lia.
           ++ assert (c' < cur_no_clusters s); [|lia].
              apply Hk. exists i. split; [lia|done].
Qed.

Lemma apply_partition_frame (G : graph_access) (cid : list nat) (n node : nat) :
  let G' := foldl (λ G node, setPartitionIndex G node (get 0 cid node)) G (seq 0 n) in
  node_weight (node_at G' node) = node_weight (node_at G node) ∧
  node_edges (node_at G' node) = node_edges (node_at G node).
Proof.
  cbv zeta. induction n as [|n [IHw IHe]]; [done|].
  rewrite seq_S, foldl_app. simpl.
  set (Gn := foldl _ G (seq 0 n)) in *.
  unfold node_at, get in *. simpl.
  rewrite list_lookup_alter. destruct (decide (n = node)) as [->|Hne]; [|done].
  destruct (nodes Gn !! node) as [x|] eqn:Hx; simpl in *; done.
Qed.

Lemma remap_cluster_ids_nodes (G : graph_access) (cid : list nat) (b : bool) :
  number_of_nodes (remap_cluster_ids G cid b).1.1 = number_of_nodes G.
Proof.
  unfold remap_cluster_ids. simpl. destruct b; [|done].
  unfold number_of_nodes, apply_partition. simpl. apply apply_partition_prefix.
Qed.

(** X2 (remapping twice): remapping the vector that [remap_cluster_ids]
    returned, on the graph it returned, gives the same vector and the same
    cluster count again. *)
Theorem remap_cluster_ids_idempotent (G G' : graph_access)
    (cid cid' : list nat) (b b' : bool) (k : nat) :
  length cid = number_of_nodes G →
  remap_cluster_ids G cid b = (G', cid', k) →
  (remap_cluster_ids G' cid' b').1.2 = cid' ∧
  (remap_cluster_ids G' cid' b').2 = k.
Proof.
  intros Hlen Heq.
  pose proof (remap_cluster_ids_nodes G cid b) as HN. rewrite Heq in HN. simpl in HN.
  destruct (remap_cluster_ids_inv _ _ _ _ _ _ Hlen Heq) as (s & Hinv & Hs & Hk).
  assert (Hlen' : length cid' = number_of_nodes G').
  { rewrite <- Hs, (ri_length _ _ _ Hinv). lia. }
  assert (Hord : first_appearance_order cid').
  { unfold remap_cluster_ids in Heq. injection Heq as _ <- _.
    destruct (remap_loop_order cid (number_of_nodes G)) as [_ Hord]; [lia|].
    intros i x y Hx Hy. apply (Hord i x y); [|done..].
    apply lookup_lt_Some in Hx. lia. }
  destruct (remap_loop_canonical cid' (number_of_nodes G') Hord) as (Hr & _ & Hcount);
    [lia|].
  unfold remap_cluster_ids. simpl. split; [done|].
  set (k' := cur_no_clusters (remap_loop cid' (number_of_nodes G'))) in *.
  assert (Hiff : ∀ c, c < k' ↔ c < k).
  { intros c. rewrite Hcount, <- Hk, <- (remap_inv_values cid s c Hinv), Hs.
    rewrite list_elem_of_lookup. split.
    - intros (i & _ & Hi). by exists i.
    - intros (i & Hi). exists i. split; [|done]. apply lookup_lt_Some in Hi. lia. }
  destruct (decide (k' = k)) as [|Hne]; [done|].
  destruct (decide (k' < k)) as [Hlt|Hge].
  - apply Hiff in Hlt. lia.
  - assert (k < k') as Hlt by lia. apply Hiff in Hlt. lia.
Qed.

(** The graph that [remap_cluster_ids] returns has the same number of
    nodes and, at every node, the same weight and the same out-edges as the
    graph it was given, with or without write-back. *)
Lemma remap_cluster_ids_keeps_graph (G : graph_access) (cid : list nat)
    (apply_to_graph : bool) (node : nat) :
  let G' := (remap_cluster_ids G cid apply_to_graph).1.1 in
  number_of_nodes G' = number_of_nodes G ∧
  node_weight (node_at G' node) = node_weight (node_at G node) ∧
  out_edges G' node = out_edges G node.
Proof.
  cbv zeta. split; [apply remap_cluster_ids_nodes|].
  unfold remap_cluster_ids, out_edges. simpl. destruct apply_to_graph; [|done].
  unfold apply_partition.
  change (node_at (set_partition_count ?g ?k) node) with (node_at g node).
  apply apply_partition_frame.
Qed.

(** X3 (only the nodes' entries): when the vector is at least as long as
    the node count, [remap_cluster_ids] keeps its length and leaves every
    entry past the node count as it was. *)
Theorem remap_cluster_ids_tail (G G' : graph_access) (cid cid' : list nat)
    (apply_to_graph : bool) (k i : nat) :
  number_of_nodes G ≤ length cid →
  remap_cluster_ids G cid apply_to_graph = (G', cid', k) →
  length cid' = length cid ∧ (number_of_nodes G ≤ i → cid' !! i = cid !! i).
Proof.
  intros Hlen Heq. unfold remap_cluster_ids in Heq. injection Heq as _ <- _.
  pose proof (remap_loop_inv cid (number_of_nodes G) Hlen) as Hinv.
  split; [apply (ri_length _ _ _ Hinv)|apply (ri_rest _ _ _ Hinv)].
Qed.

(** * Further properties of the propagation engine *)

(** ** Well-formed inputs *)

Lemma targets_in_range_spec (G : graph_access) (node : nat) (e : edge) :
  targets_in_range G = true → e ∈ out_edges G node →
  getEdgeTarget e < number_of_nodes G.
Proof.
  unfold targets_in_range, out_edges, node_at, get. intros Hok He.
  destruct (nodes G !! node) as [x|] eqn:Hx; simpl in He.
  - rewrite forallb_forall in Hok.
    assert (In x (nodes G)) as Hin.
    { apply list_elem_of_In, list_elem_of_lookup. by exists node. }
    specialize (Hok x Hin). rewrite forallb_forall in Hok.
    apply Nat.ltb_lt, Hok. by apply list_elem_of_In.
  - by apply elem_of_nil in He.
Qed.

Lemma neighbour_blocks_elem (G : graph_access) (cid : list nat) (node c : nat) :
  c ∈ neighbour_blocks G cid node ↔
  ∃ e, e ∈ out_edges G node ∧ c = get 0 cid (getEdgeTarget e).
Proof.
  unfold neighbour_blocks. rewrite list_elem_of_In, in_map_iff. split.
  - intros (e & <- & He). exists e. by rewrite list_elem_of_In.
  - intros (e & He & ->). exists e. by rewrite <- list_elem_of_In.
Qed.

(** ** What a visit changes *)

Lemma propagate_node_block (width : nat) (G : graph_access)
    (block_upperbound : Z) (st : lp_state) (node : nat) :
  let s := second_sweep width G block_upperbound (cluster_sizes st)
             (cluster_id st)
             (first_sweep width G (cluster_id st) (hash_map st) node)
             (rnd st) node in
  max_block s = get 0 (cluster_id st) node
  ∨ max_block s ∈ neighbour_blocks G (cluster_id st) node.
Proof.
  cbv zeta. unfold second_sweep.
  destruct (sweep_block_source width block_upperbound (cluster_sizes st)
              (cluster_id st) (getNodeWeight width G node)
              (get 0 (cluster_id st) node)
              {| sw_hash := first_sweep width G (cluster_id st) (hash_map st) node;
                 max_value := 0; max_block := get 0 (cluster_id st) node;
                 sw_rnd := rnd st |}
              (out_edges G node)) as [Heq|Hin]; [by left|by right].
Qed.

(** X5 (a visit moves one node, to a neighbour's cluster): a visit keeps
    the length of [cluster_id], leaves the cluster of every other node as
    it was, and leaves the visited node in its old cluster or in the
    cluster of the target of one of its out-edges. *)
Theorem propagate_node_moves_to_neighbour (width : nat) (G : graph_access)
    (block_upperbound : Z) (st : lp_state) (node : nat) :
  let st' := propagate_node width G block_upperbound st node in
  length (cluster_id st') = length (cluster_id st) ∧
  (∀ v, v ≠ node → get 0 (cluster_id st') v = get 0 (cluster_id st) v) ∧
  (get 0 (cluster_id st') node = get 0 (cluster_id st) node
   ∨ get 0 (cluster_id st') node ∈ neighbour_blocks G (cluster_id st) node).
Proof.
  cbv zeta. unfold propagate_node. simpl. split; [by rewrite length_insert|].
  split; [intros v Hv; by rewrite get_insert_ne|].
  rewrite get_insert. case_decide; [|by left].
  apply propagate_node_block.
Qed.

(** ** Cluster ids stay node indices *)

Lemma commit_sizes_length (width : nat) (cs : list Z) (w : Z) (a b : nat) :
  length (commit_sizes width cs w a b) = length cs.
Proof. unfold commit_sizes. by rewrite !length_insert. Qed.

Lemma range_inv_block (G : graph_access) (st : lp_state) (t : nat) :
  range_inv G st → 0 < number_of_nodes G →
  get 0 (cluster_id st) t < number_of_nodes G.
Proof.
  intros Hinv HN. destruct (decide (t < number_of_nodes G)) as [Ht|Ht].
  - by apply (rg_ids _ _ Hinv).
  - rewrite get_ge; [done|]. rewrite (rg_ids_length _ _ Hinv). lia.
Qed.

Lemma range_inv_node (width : nat) (G : graph_access) (block_upperbound : Z)
    (st : lp_state) (node : nat) :
  range_inv G st → range_inv G (propagate_node width G block_upperbound st node).
Proof.
  intros Hinv. pose proof Hinv as [Hh Hs Hi Hr]. split.
  - by rewrite propagate_node_hash_length.
  - unfold propagate_node. simpl. by rewrite commit_sizes_length.
  - unfold propagate_node. simpl. by rewrite length_insert.
  - intros v Hv. unfold propagate_node. simpl. rewrite get_insert.
    case_decide as Hc; [|by apply Hr]. destruct Hc as [-> _].
    destruct (propagate_node_block width G block_upperbound st v) as [->|Hin];
      [by apply Hr|].
    apply neighbour_blocks_elem in Hin as (e & _ & ->).
    apply range_inv_block; [done|lia].
Qed.

Lemma range_inv_initial (width : nat) (G : graph_access) (cid0 : list nat)
    (r : random_functions) :
  range_inv G (initial_state width G cid0 r).
Proof.
  destruct (initial_state_spec width G cid0 r) as (Hh & Hcid & Hcs & _).
  split; rewrite ?Hh, ?Hcid, ?Hcs.
  - by rewrite length_replicate.
  - by rewrite length_map, length_seq.
  - by rewrite length_seq.
  - intros v Hv. by rewrite get_seq.
Qed.

Lemma range_inv_run (width : nat) (G : graph_access) (block_upperbound : Z)
    (cid0 order : list nat) (r : random_functions) (j k : nat) :
  range_inv G (state_at width G block_upperbound cid0 order r j k).
Proof.
  apply (state_at_invariant width G block_upperbound order (range_inv G)).
  - intros st [? ? ? ?]. by split.
  - intros st node. apply range_inv_node.
  - apply range_inv_initial.
Qed.

(** X6 (cluster ids stay node indices): at every point of a run
    [hash_map], [cluster_sizes] and [cluster_id] have one entry per node
    and every cluster id is a node index, so that the arrays are indexed
    within bounds by cluster id; the same holds of the state the loop ends
    in. *)
Theorem cluster_ids_in_range (width : nat) (G : graph_access)
    (block_upperbound : Z) (cid0 order : list nat) (r : random_functions) :
  (∀ j k, range_inv G (state_at width G block_upperbound cid0 order r j k)) ∧
  (∀ cfg, range_inv G (propagated width cfg G block_upperbound cid0 order r)).
Proof.
  split; [intros j k; apply range_inv_run|].
  intros cfg. unfold propagated.
  apply (passes_invariant width G block_upperbound order (range_inv G)).
  - intros st [? ? ? ?]. by split.
  - intros st node. apply range_inv_node.
  - apply range_inv_initial.
Qed.

(** ** The size tracker and the capacity *)

Lemma sizes_inv_run (width : nat) (G : graph_access) (block_upperbound : Z)
    (cid0 order : list nat) (r : random_functions) (j k : nat) :
  (total_node_weight width G < modulus width)%Z →
  sizes_inv width G (state_at width G block_upperbound cid0 order r j k).
Proof.
  intros Htotal.
  apply (state_at_invariant width G block_upperbound order (sizes_inv width G)).
  - intros st [? ? ? ? ?]. by split.
  - intros st node. by apply sizes_inv_node.
  - apply sizes_inv_initial.
Qed.

(** X7 (tracked sizes are cluster weights): when the weight of the graph
    fits a [NodeWeight], at every point of a run the size tracked for a
    cluster is the weight of the nodes that are in it, and a cluster
    without nodes has size 0. *)
Theorem cluster_sizes_are_member_weights (width : nat) (G : graph_access)
    (block_upperbound : Z) (cid0 order : list nat) (r : random_functions)
    (j k c : nat) :
  (total_node_weight width G < modulus width)%Z →
  c < number_of_nodes G →
  let st := state_at width G block_upperbound cid0 order r j k in
  get 0%Z (cluster_sizes st) c = member_weight width G (cluster_id st) c ∧
  (c ∉ cluster_id st → get 0%Z (cluster_sizes st) c = 0%Z).
Proof.
  intros Htotal Hc st.
  pose proof (sizes_inv_run width G block_upperbound cid0 order r j k Htotal) as Hinv.
  fold st in Hinv. rewrite (si_sizes _ _ _ Hinv) by done. split; [done|].
  intros Hnot. unfold member_weight.
  rewrite (sumZ_seq_ext _ (λ _, 0%Z)).
  - clear. induction (number_of_nodes G) as [|n IH]; [done|].
    rewrite sumZ_seq_S, IH. lia.
  - intros v Hv. rewrite decide_False; [done|]. intros <-. apply Hnot.
    apply list_elem_of_lookup. exists v.
    destruct (lookup_lt_is_Some_2 (cluster_id st) v) as [x Hx].
    { rewrite (si_ids_length _ _ _ Hinv). lia. }
    by rewrite (get_lookup 0 _ _ _ Hx).
Qed.

Lemma weights_within_spec (width : nat) (G : graph_access)
    (block_upperbound : Z) (v : nat) :
  weights_within width G block_upperbound = true → v < number_of_nodes G →
  (getNodeWeight width G v ≤ block_upperbound)%Z.
Proof.
  unfold weights_within. rewrite forallb_forall. intros Hall Hv.
  apply Z.leb_le, Hall, in_seq. lia.
Qed.

(** Sizes within the capacity stay within it over a visit. *)
Lemma capacity_node (width : nat) (G : graph_access) (block_upperbound : Z)
    (st : lp_state) (node : nat) :
  (total_node_weight width G < modulus width)%Z →
  sizes_inv width G st →
  (∀ c, c < number_of_nodes G → (get 0%Z (cluster_sizes st) c ≤ block_upperbound)%Z) →
  ∀ c, c < number_of_nodes G →
       (get 0%Z (cluster_sizes (propagate_node width G block_upperbound st node)) c
        ≤ block_upperbound)%Z.
Proof.
  intros Htotal Hinv Hcap c Hc.
  pose proof (sizes_inv_node width G block_upperbound st node Htotal Hinv) as Hinv'.
  pose proof (propagate_node_admits width G block_upperbound st node) as Hadm.
  cbv zeta in Hadm.
  set (st' := propagate_node width G block_upperbound st node) in *.
  destruct (decide (get 0 (cluster_id st') node = get 0 (cluster_id st) node))
    as [Hsame|Hmoved].
  - (* the node stays: no size changes *)
    rewrite (si_sizes _ _ _ Hinv') by done.
    assert (cluster_id st' = cluster_id st) as ->.
    { subst st'. unfold propagate_node in *. simpl in *.
      rewrite get_insert in Hsame. case_decide as Hin.
      - rewrite Hsame. apply insert_get_id.
      - apply list_insert_ge. lia. }
    rewrite <- (si_sizes _ _ _ Hinv) by done. by apply Hcap.
  - (* the node moves *)
    specialize (Hadm Hmoved).
    destruct (decide (c = get 0 (cluster_id st') node)) as [->|Hne]; [done|].
    assert (Hnode : node < number_of_nodes G).
    { destruct (decide (node < number_of_nodes G)) as [|Hge]; [done|].
      exfalso. apply Hmoved. subst st'. unfold propagate_node. simpl.
      rewrite list_insert_ge; [done|]. rewrite (si_ids_length _ _ _ Hinv). lia. }
    rewrite (si_sizes _ _ _ Hinv') by done.
    assert (Hcid : cluster_id st' =
                   <[node := get 0 (cluster_id st') node]> (cluster_id st)).
    { subst st'. unfold propagate_node. simpl.
      rewrite get_insert, decide_True; [done|].
      split; [done|]. rewrite (si_ids_length _ _ _ Hinv). lia. }
    rewrite Hcid at 1.
    rewrite (member_weight_move width G (cluster_id st) node _ c Hnode
               (si_ids_length _ _ _ Hinv)).
    rewrite (decide_False (P := get 0 (cluster_id st') node = c)) by done.
    specialize (Hcap c Hc). rewrite (si_sizes _ _ _ Hinv) in Hcap by done.
    pose proof (wrap_nonneg width (node_weight (node_at G node))) as Hw.
    fold (getNodeWeight width G node) in Hw.
    case_decide; lia.
Qed.

Lemma capacity_run (width : nat) (G : graph_access) (block_upperbound : Z)
    (cid0 order : list nat) (r : random_functions) (j k : nat) :
  (total_node_weight width G < modulus width)%Z →
  weights_within width G block_upperbound = true →
  let st := state_at width G block_upperbound cid0 order r j k in
  sizes_inv width G st ∧
  ∀ c, c < number_of_nodes G →
       (get 0%Z (cluster_sizes st) c ≤ block_upperbound)%Z.
Proof.
  intros Htotal Hw. cbv zeta.
  apply (state_at_invariant width G block_upperbound order
           (λ st, sizes_inv width G st ∧
                  ∀ c, c < number_of_nodes G →
                       (get 0%Z (cluster_sizes st) c ≤ block_upperbound)%Z)).
  - intros st [[? ? ? ? ?] Hcap]. split; [by split|done].
  - intros st node [Hinv Hcap]. split; [by apply sizes_inv_node|].
    by apply capacity_node.
  - split; [apply sizes_inv_initial|].
    intros c' Hc'. destruct (initial_state_spec width G cid0 r) as (_ & _ & -> & _).
    rewrite (get_lookup 0%Z _ _ (getNodeWeight width G c')).
    + by apply weights_within_spec.
    + by rewrite list_lookup_fmap, lookup_seq_lt.
Qed.

(** X8 (capacity over a whole run): when the weight of the graph fits a
    [NodeWeight] and no node is heavier than [block_upperbound], then at
    every point of a run the tracked size of every cluster, which is the
    weight of its nodes, is at most [block_upperbound]. *)
Theorem capacity_respected (width : nat) (G : graph_access)
    (block_upperbound : Z) (cid0 order : list nat) (r : random_functions)
    (j k c : nat) :
  (total_node_weight width G < modulus width)%Z →
  weights_within width G block_upperbound = true →
  c < number_of_nodes G →
  let st := state_at width G block_upperbound cid0 order r j k in
  (get 0%Z (cluster_sizes st) c ≤ block_upperbound)%Z ∧
  (member_weight width G (cluster_id st) c ≤ block_upperbound)%Z.
Proof.
  intros Htotal Hw Hc st.
  destruct (capacity_run width G block_upperbound cid0 order r j k Htotal Hw)
    as [Hinv Hcap].
  fold st in Hinv, Hcap. split; [by apply Hcap|].
  rewrite <- (si_sizes _ _ _ Hinv) by done. by apply Hcap.
Qed.

(** ** No cluster is created *)

Lemma get_elem {A : Type} (d : A) (v : list A) (i : nat) :
  i < length v → get d v i ∈ v.
Proof.
  intros Hi. destruct (lookup_lt_is_Some_2 v i Hi) as [x Hx].
  rewrite (get_lookup _ _ _ _ Hx). apply list_elem_of_lookup. by exists i.
Qed.

Lemma remap_cluster_ids_count (G : graph_access) (cid : list nat) (b : bool) :
  length cid = number_of_nodes G →
  (remap_cluster_ids G cid b).2 = size (list_to_set cid : gset nat).
Proof.
  intros Hlen. unfold remap_cluster_ids. simpl.
  pose proof (remap_loop_inv cid (number_of_nodes G) ltac:(lia)) as Hinv.
  rewrite <- Hlen in Hinv at 1.
  rewrite <- (ri_size _ _ _ Hinv), <- (size_dom (D:=gset nat)).
  f_equal. apply set_eq. intros c.
  rewrite elem_of_dom, elem_of_list_to_set, list_elem_of_lookup. split.
  - intros [v Hv]. destruct (ri_seen _ _ _ Hinv c v Hv) as (_ & (i & _ & Hi) & _).
    by exists i.
  - intros [i Hi]. assert (i < length cid) as Hlt by by eapply lookup_lt_Some.
    destruct (ri_done _ _ _ Hinv i c Hlt Hi) as (v & Hv & _). by exists v.
Qed.

Lemma ids_shrink_node (width : nat) (G : graph_access) (block_upperbound : Z)
    (st : lp_state) (node c : nat) :
  targets_in_range G = true → range_inv G st →
  c ∈ cluster_id (propagate_node width G block_upperbound st node) →
  c ∈ cluster_id st.
Proof.
  intros Hok Hinv [i Hi]%list_elem_of_lookup.
  unfold propagate_node in Hi. simpl in Hi.
  rewrite list_lookup_insert in Hi. case_decide as Hc.
  - destruct Hc as [-> Hlt]. injection Hi as <-.
    destruct (propagate_node_block width G block_upperbound st i) as [->|Hin].
    + by apply get_elem.
    + apply neighbour_blocks_elem in Hin as (e & He & ->).
      apply get_elem. rewrite (rg_ids_length _ _ Hinv).
      by apply (targets_in_range_spec G i).
  - apply list_elem_of_lookup. by exists i.
Qed.

Lemma ids_shrink_pass (width : nat) (G : graph_access) (block_upperbound : Z)
    (order : list nat) (st : lp_state) :
  targets_in_range G = true → range_inv G st →
  range_inv G (pass width G block_upperbound order st) ∧
  ∀ c, c ∈ cluster_id (pass width G block_upperbound order st) →
       c ∈ cluster_id st.
Proof.
  intros Hok Hinv. unfold pass.
  apply (pass_prefix_invariant width G block_upperbound order
           (λ st', range_inv G st' ∧ ∀ c, c ∈ cluster_id st' → c ∈ cluster_id st)).
  - intros st' [[? ? ? ?] Hsub]. split; [by split|done].
  - intros st' node [Hinv' Hsub]. split; [by apply range_inv_node|].
    intros c Hc. apply Hsub. by eapply ids_shrink_node.
  - by split.
Qed.

Lemma ids_shrink_passes (width : nat) (G : graph_access) (block_upperbound : Z)
    (order : list nat) (st : lp_state) (j j' : nat) :
  targets_in_range G = true → range_inv G st → j ≤ j' →
  range_inv G (passes width G block_upperbound order j' st) ∧
  ∀ c, c ∈ cluster_id (passes width G block_upperbound order j' st) →
       c ∈ cluster_id (passes width G block_upperbound order j st).
Proof.
  intros Hok Hinv Hj. induction Hj as [|j' Hj [IHinv IHsub]].
  - split; [|done].
    apply (passes_invariant width G block_upperbound order (range_inv G)); try done.
    + intros st' [? ? ? ?]. by split.
    + intros st' node. apply range_inv_node.
  - simpl. destruct (ids_shrink_pass width G block_upperbound order
                       (passes width G block_upperbound order j' st) Hok IHinv)
      as [Hinv' Hsub].
    split; [done|]. intros c Hc. by apply IHsub, Hsub.
Qed.

(** X9 (no cluster is created): when every edge leads to a node of the
    graph, every cluster id in use after [j'] passes was in use after any
    smaller number [j] of passes of the same run, and so [label_propagation]
    reports at most as many clusters with [j'] iterations as with [j]. *)
Theorem clusters_only_merge (width : nat) (apply_default : bool)
    (G : graph_access) (block_upperbound : Z) (cid0 order : list nat)
    (r : random_functions) (j j' : nat) :
  targets_in_range G = true → j ≤ j' →
  (∀ c, c ∈ cluster_id (propagated width {| label_iterations := Z.of_nat j' |}
                          G block_upperbound cid0 order r) →
        c ∈ cluster_id (propagated width {| label_iterations := Z.of_nat j |}
                          G block_upperbound cid0 order r)) ∧
  (label_propagation width apply_default {| label_iterations := Z.of_nat j' |}
     G block_upperbound cid0 order r).2
  ≤ (label_propagation width apply_default {| label_iterations := Z.of_nat j |}
       G block_upperbound cid0 order r).2.
Proof.
  intros Hok Hj. unfold label_propagation, propagated.
  cbn [label_iterations]. rewrite !Nat2Z.id.
  destruct (ids_shrink_passes width G block_upperbound order
              (initial_state width G cid0 r) j j' Hok
              (range_inv_initial width G cid0 r) Hj) as [Hinv' Hsub].
  split; [done|].
  assert (Hinv : range_inv G (passes width G block_upperbound order j
                                (initial_state width G cid0 r))).
  { apply (ids_shrink_passes width G block_upperbound order _ j j); try done.
    apply range_inv_initial. }
  rewrite !remap_cluster_ids_count
    by (by apply rg_ids_length).
  apply subseteq_size. intros c. rewrite !elem_of_list_to_set. apply Hsub.
Qed.

(** ** Votes *)

Lemma state_at_hash_zero (width : nat) (G : graph_access) (block_upperbound : Z)
    (cid0 order : list nat) (r : random_functions) (j k : nat) :
  hash_map (state_at width G block_upperbound cid0 order r j k)
  = replicate (number_of_nodes G) 0%Z.
Proof.
  apply (state_at_invariant width G block_upperbound order
           (λ st, hash_map st = replicate (number_of_nodes G) 0%Z)).
  - done.
  - intros st node Hst. apply all_zero.
    + by rewrite propagate_node_hash_length, Hst, length_replicate.
    + intros c. rewrite propagate_node_hash. case_decide; [done|].
      rewrite Hst. unfold get.
      destruct (replicate _ _ !! c) as [x|] eqn:Hx; [|done].
      by apply lookup_replicate in Hx as [-> _].
  - apply initial_state_spec.
Qed.

Lemma get_replicate_zero (n c : nat) : get 0%Z (replicate n 0%Z) c = 0%Z.
Proof.
  unfold get. destruct (replicate _ _ !! c) as [x|] eqn:Hx; [|done].
  by apply lookup_replicate in Hx as [-> _].
Qed.

Lemma wrap_add_l (width : nat) (a b : Z) :
  wrap width (wrap width a + b) = wrap width (a + b).
Proof. unfold wrap. by rewrite Zplus_mod_idemp_l. Qed.

(** The first sweep adds to every entry the weights of the edges into its
    cluster. *)
Lemma accumulate_votes (width : nat) (cid : list nat) (es : list edge)
    (hm : list Z) (c : nat) :
  c < length hm →
  wrap width (get 0%Z (foldl (accumulate width cid) hm es) c) =
  wrap width (get 0%Z hm c +
              sumZ (map (λ e, if decide (get 0 cid (getEdgeTarget e) = c)
                              then getEdgeWeight e else 0%Z) es)).
Proof.
  revert hm. induction es as [|e es IH]; intros hm Hc; simpl.
  - f_equal. lia.
  - rewrite IH by (unfold accumulate; by rewrite length_insert).
    unfold accumulate. rewrite get_insert.
    destruct (decide (get 0 cid (getEdgeTarget e) = c)) as [->|Hne].
    + rewrite decide_True by done.
      rewrite wrap_add_l. f_equal. lia.
    + rewrite (decide_False (P := _ ∧ _)) by (intros [? _]; done).
      f_equal; lia.
Qed.

Lemma accumulate_range (width : nat) (cid : list nat) (es : list edge)
    (hm : list Z) :
  (∀ c, 0 ≤ get 0%Z hm c < modulus width)%Z →
  ∀ c, (0 ≤ get 0%Z (foldl (accumulate width cid) hm es) c < modulus width)%Z.
Proof.
  revert hm. induction es as [|e es IH]; intros hm Hhm; simpl; [done|].
  apply IH. intros c. unfold accumulate. rewrite get_insert.
  case_decide; [|done].
  split; [apply wrap_nonneg|apply wrap_lt].
Qed.

Lemma modulus_pos (width : nat) : (0 < modulus width)%Z.
Proof. unfold modulus. lia. Qed.

Lemma first_sweep_zero (width : nat) (G : graph_access) (cid : list nat)
    (n node c : nat) :
  c < n →
  get 0%Z (first_sweep width G cid (replicate n 0%Z) node) c
  = vote width G cid node c.
Proof.
  intros Hc. unfold first_sweep, vote.
  pose proof (accumulate_range width cid (out_edges G node) (replicate n 0%Z)) as Hr.
  rewrite <- (wrap_small width (get 0%Z (foldl _ _ _) c)).
  - rewrite accumulate_votes by (by rewrite length_replicate).
    by rewrite get_replicate_zero.
  - apply Hr. intros c'. rewrite get_replicate_zero.
    pose proof (modulus_pos width). lia.
Qed.

Lemma vote_nonneg (width : nat) (G : graph_access) (cid : list nat)
    (node c : nat) : (0 ≤ vote width G cid node c)%Z.
Proof. apply wrap_nonneg. Qed.

Lemma vote_no_edge (width : nat) (G : graph_access) (cid : list nat)
    (node c : nat) :
  c ∉ neighbour_blocks G cid node → vote width G cid node c = 0%Z.
Proof.
  unfold vote, neighbour_blocks. intros Hc.
  assert (sumZ (map (λ e, if decide (get 0 cid (getEdgeTarget e) = c)
                          then getEdgeWeight e else 0%Z) (out_edges G node)) = 0%Z)
    as ->.
  { induction (out_edges G node) as [|e es IH]; [done|].
    rewrite map_cons, not_elem_of_cons in Hc. destruct Hc as [Hne Hc].
    simpl. rewrite decide_False by done. rewrite IH by done. lia. }
  unfold wrap. apply Z.mod_0_l. pose proof (modulus_pos width). lia.
Qed.

(** X10 (vote accumulation): at every point of a run the first sweep of a
    visit leaves in [hash_map], for every cluster, the weights of the
    node's out-edges into that cluster added up modulo [2^width]; parallel
    edges count once each, and a cluster no edge leads to keeps 0. *)
Theorem first_sweep_accumulates (width : nat) (G : graph_access)
    (block_upperbound : Z) (cid0 order : list nat) (r : random_functions)
    (j k node c : nat) :
  c < number_of_nodes G →
  let st := state_at width G block_upperbound cid0 order r j k in
  get 0%Z (first_sweep width G (cluster_id st) (hash_map st) node) c
  = vote width G (cluster_id st) node c ∧
  (c ∉ neighbour_blocks G (cluster_id st) node →
   vote width G (cluster_id st) node c = 0%Z).
Proof.
  intros Hc st. split; [|apply vote_no_edge].
  subst st. rewrite state_at_hash_zero. by apply first_sweep_zero.
Qed.

(** ** The winner of the second sweep *)

Lemma improves_true (cur best : Z) (r : random_functions) :
  (improves cur best r).1 = true → (best ≤ cur)%Z.
Proof.
  unfold improves. destruct (best <? cur)%Z eqn:Hlt; [intros _; lia|].
  destruct (cur =? best)%Z eqn:Heq; [intros _; lia|done].
Qed.

Lemma improves_false (cur best : Z) (r : random_functions) :
  (improves cur best r).1 = false → (cur ≤ best)%Z.
Proof.
  unfold improves. destruct (best <? cur)%Z eqn:Hlt; [done|]. intros _. lia.
Qed.

(** [seen] lists the blocks the sweep has read so far; their entries are
    zero, the others are as the first sweep left them in [hm].  The vote of
    every block seen that passes the capacity test is at most [max_value],
    which is at most the vote of [max_block]. *)
Lemma sweep_plurality (width : nat) (block_upperbound : Z) (cs : list Z)
    (cid : list nat) (w : Z) (my_block : nat) (hm : list Z) (es : list edge) :
  (∀ c, 0 ≤ get 0%Z hm c)%Z →
  ∀ (seen : list nat) (s : sweep),
  (∀ c, get 0%Z (sw_hash s) c = if decide (c ∈ seen) then 0%Z else get 0%Z hm c) →
  (∀ c, c ∈ seen → admissible width block_upperbound cs w my_block c = true →
        (get 0%Z hm c ≤ max_value s)%Z) →
  (0 ≤ max_value s ≤ get 0%Z hm (max_block s))%Z →
  let s' := foldl (select width block_upperbound cs cid w my_block) s es in
  (∀ c, c ∈ seen ∨ c ∈ map (λ e, get 0 cid (getEdgeTarget e)) es →
        admissible width block_upperbound cs w my_block c = true →
        (get 0%Z hm c ≤ max_value s')%Z) ∧
  (max_value s' ≤ get 0%Z hm (max_block s'))%Z.
Proof.
  intros Hnn. induction es as [|e es IH]; intros seen s Hhash Hseen Hmax; cbv zeta.
  - simpl. split; [|lia]. intros c [Hc|Hc]; [by apply Hseen|by apply elem_of_nil in Hc].
  - change (foldl ?f s (e :: es)) with (foldl f (f s e) es).
    set (b := get 0 cid (getEdgeTarget e)).
    set (s1 := select width block_upperbound cs cid w my_block s e).
    assert (Hcur : (0 ≤ get 0%Z (sw_hash s) b ≤ get 0%Z hm b)%Z).
    { rewrite Hhash. specialize (Hnn b). case_decide; lia. }
    assert (Hs1 : (∀ c, get 0%Z (sw_hash s1) c =
                        if decide (c ∈ b :: seen) then 0%Z else get 0%Z hm c) ∧
                  (∀ c, c ∈ b :: seen →
                        admissible width block_upperbound cs w my_block c = true →
                        (get 0%Z hm c ≤ max_value s1)%Z) ∧
                  (0 ≤ max_value s1 ≤ get 0%Z hm (max_block s1))%Z).
    { split.
      { intros c. subst s1. rewrite select_hash. fold b. rewrite get_insert, Hhash.
        destruct (decide (b = c)) as [<-|Hne].
        - rewrite (decide_True (P := b ∈ b :: seen)) by (apply elem_of_cons; by left).
          case_decide as Hin; [done|].
          pose proof (Hhash b) as Hb. rewrite get_ge in Hb by lia.
          case_decide; [done|]. lia.
        - rewrite (decide_False (P := _ ∧ _)) by (intros [? _]; done).
          destruct (decide (c ∈ seen)) as [Hin|Hnin].
          + rewrite decide_True; [done|]. apply elem_of_cons; by right.
          + rewrite decide_False; [done|]. intros [?|?]%elem_of_cons; done. }
      subst s1. unfold select. fold b.
      destruct (improves (get 0%Z (sw_hash s) b) (max_value s) (sw_rnd s))
        as [better r'] eqn:Himp.
      assert (Hb : (improves (get 0%Z (sw_hash s) b) (max_value s) (sw_rnd s)).1
                   = better) by by rewrite Himp.
      destruct better; simpl.
      - apply improves_true in Hb.
        destruct (admissible width block_upperbound cs w my_block b) eqn:Hadm; simpl.
        + split; [|lia]. intros c [->|Hc]%elem_of_cons Hc'.
          * destruct (decide (b ∈ seen)) as [Hin|Hnin].
            -- specialize (Hseen b Hin Hc'). lia.
            -- rewrite Hhash, decide_False by done. lia.
          * specialize (Hseen c Hc Hc'). lia.
        + split; [|lia]. intros c [->|Hc]%elem_of_cons Hc'; [congruence|].
          by apply Hseen.
      - apply improves_false in Hb.
        split; [|lia]. intros c [->|Hc]%elem_of_cons Hc'; [|by apply Hseen].
        destruct (decide (b ∈ seen)) as [Hin|Hnin]; [by apply Hseen|].
        rewrite Hhash, decide_False in Hb by done. done. }
    destruct Hs1 as (Hh1 & Hseen1 & Hmax1).
    destruct (IH (b :: seen) s1 Hh1 Hseen1 Hmax1) as [IHseen IHmax].
    split; [|done]. intros c Hc. apply IHseen.
    destruct Hc as [Hc|Hc].
    + left. apply elem_of_cons; by right.
    + rewrite map_cons in Hc. apply elem_of_cons in Hc as [->|Hc].
      * left. apply elem_of_cons; by left.
      * by right.
Qed.

(** At a visit of a run the cluster the node ends in has a vote at least
    that of every cluster next to the node that passes the capacity test. *)
Lemma run_plurality (width : nat) (G : graph_access) (block_upperbound : Z)
    (cid0 order : list nat) (r : random_functions) (j k node c : nat) :
  let st := state_at width G block_upperbound cid0 order r j k in
  let st' := propagate_node width G block_upperbound st node in
  c ∈ neighbour_blocks G (cluster_id st) node →
  admissible width block_upperbound (cluster_sizes st)
    (getNodeWeight width G node) (get 0 (cluster_id st) node) c = true →
  (vote width G (cluster_id st) node c
   ≤ vote width G (cluster_id st) node (get 0%nat (cluster_id st') node))%Z.
Proof.
  intros st st' Hc Hadm.
  pose proof (range_inv_run width G block_upperbound cid0 order r j k) as Hinv.
  fold st in Hinv.
  assert (Hnode : node < number_of_nodes G).
  { apply out_edges_node. intros He. unfold neighbour_blocks in Hc.
    rewrite He in Hc. by apply elem_of_nil in Hc. }
  assert (HcN : c < number_of_nodes G).
  { apply neighbour_blocks_elem in Hc as (e & _ & ->).
    apply range_inv_block; [done|lia]. }
  pose proof (range_inv_node width G block_upperbound st node Hinv) as Hinv'.
  fold st' in Hinv'.
  pose proof (rg_ids _ _ Hinv' node Hnode) as HnewN.
  set (hm := first_sweep width G (cluster_id st) (hash_map st) node).
  assert (Hhm : ∀ c', c' < number_of_nodes G →
                      get 0%Z hm c' = vote width G (cluster_id st) node c').
  { intros c' Hc'. subst hm st. rewrite state_at_hash_zero.
    by apply first_sweep_zero. }
  assert (Hnn : ∀ c', (0 ≤ get 0%Z hm c')%Z).
  { intros c'. destruct (decide (c' < number_of_nodes G)) as [Hlt|Hge].
    - rewrite Hhm by done. apply vote_nonneg.
    - rewrite get_ge; [done|]. subst hm. unfold first_sweep.
      rewrite accumulate_length, (rg_hash_length _ _ Hinv). lia. }
  assert (Hnew : get 0 (cluster_id st') node =
                 max_block (second_sweep width G block_upperbound (cluster_sizes st)
                              (cluster_id st) hm (rnd st) node)).
  { subst st'. unfold propagate_node. simpl. rewrite get_insert, decide_True; [done|].
    split; [done|]. rewrite (rg_ids_length _ _ Hinv). lia. }
  rewrite Hnew in *. rewrite <- !Hhm by done.
  unfold second_sweep.
  destruct (sweep_plurality width block_upperbound (cluster_sizes st) (cluster_id st)
              (getNodeWeight width G node) (get 0 (cluster_id st) node) hm
              (out_edges G node) Hnn []
              {| sw_hash := hm; max_value := 0;
                 max_block := get 0 (cluster_id st) node; sw_rnd := rnd st |})
    as [Hall Hmax].
  - intros c'. cbn [sw_hash]. rewrite decide_False; [done|]. apply not_elem_of_nil.
  - intros c' Hc'. by apply elem_of_nil in Hc'.
  - cbn [max_value max_block]. split; [done|apply Hnn].
  - specialize (Hall c (or_intror Hc) Hadm). lia.
Qed.

(** X11 (plurality among admissible clusters): at every visit of a run,
    the cluster the visited node ends in has received a vote from the node
    that is at least the vote of every cluster next to the node that passes
    the capacity test. *)
Theorem visit_plurality (width : nat) (G : graph_access) (block_upperbound : Z)
    (cid0 order : list nat) (r : random_functions) (j k : nat) :
  k < number_of_nodes G →
  let st := state_at width G block_upperbound cid0 order r j k in
  let st' := state_at width G block_upperbound cid0 order r j (S k) in
  let node := get 0 order k in
  ∀ c, c ∈ neighbour_blocks G (cluster_id st) node →
       admissible width block_upperbound (cluster_sizes st)
         (getNodeWeight width G node) (get 0 (cluster_id st) node) c = true →
       (vote width G (cluster_id st) node c
        ≤ vote width G (cluster_id st) node (get 0%nat (cluster_id st') node))%Z.
Proof.
  intros Hk st st' node c Hc Hadm. subst st'. rewrite state_at_S by done.
  by apply run_plurality.
Qed.

Lemma strict_winner_spec (width : nat) (G : graph_access) (cid : list nat)
    (node c : nat) :
  strict_winner width G cid node c = true →
  (0 < vote width G cid node c)%Z ∧
  ∀ c', c' ∈ neighbour_blocks G cid node → c' ≠ c →
        (vote width G cid node c' < vote width G cid node c)%Z.
Proof.
  unfold strict_winner. intros [Hpos Hall]%andb_true_iff.
  split; [by apply Z.ltb_lt|]. intros c' Hc' Hne.
  rewrite forallb_forall in Hall.
  apply list_elem_of_In, Hall, orb_true_iff in Hc' as [Heq|Hlt].
  - by apply Nat.eqb_eq in Heq.
  - by apply Z.ltb_lt.
Qed.

(** X12 (a strict winner wins): at every visit of a run, when one cluster
    has a positive vote of the visited node that is larger than the vote of
    every other cluster next to the node, and passes the capacity test,
    the node ends in that cluster whatever the coin says. *)
Theorem strict_winner_is_chosen (width : nat) (G : graph_access)
    (block_upperbound : Z) (cid0 order : list nat) (r : random_functions)
    (j k c : nat) :
  k < number_of_nodes G →
  let st := state_at width G block_upperbound cid0 order r j k in
  let st' := state_at width G block_upperbound cid0 order r j (S k) in
  let node := get 0 order k in
  strict_winner width G (cluster_id st) node c = true →
  admissible width block_upperbound (cluster_sizes st)
    (getNodeWeight width G node) (get 0 (cluster_id st) node) c = true →
  get 0 (cluster_id st') node = c.
Proof.
  intros Hk st st' node Hwin Hadm. subst st'. rewrite state_at_S by done.
  fold st node.
  apply strict_winner_spec in Hwin as [Hpos Hbeats].
  assert (Hc : c ∈ neighbour_blocks G (cluster_id st) node).
  { destruct (decide (c ∈ neighbour_blocks G (cluster_id st) node)) as [|Hnot];
      [done|].
    rewrite (vote_no_edge width G (cluster_id st) node c Hnot) in Hpos. lia. }
  pose proof (run_plurality width G block_upperbound cid0 order r j k node c Hc Hadm)
    as Hle.
  cbv zeta in Hle. fold st in Hle.
  set (new := get 0 (cluster_id (propagate_node width G block_upperbound st node)) node)
    in *.
  destruct (decide (new = c)) as [|Hne]; [done|]. exfalso.
  destruct (decide (new ∈ neighbour_blocks G (cluster_id st) node)) as [Hin|Hnot].
  - specialize (Hbeats new Hin Hne). lia.
  - rewrite (vote_no_edge width G (cluster_id st) node new Hnot) in Hle. lia.
Qed.

(** ** A settled clustering *)

Lemma settled_spec (G : graph_access) (cid : list nat) (node c : nat) :
  settled G cid = true → c ∈ neighbour_blocks G cid node → c = get 0 cid node.
Proof.
  unfold settled. rewrite forallb_forall. intros Hall Hc.
  assert (Hnode : node < number_of_nodes G).
  { apply out_edges_node. intros He. unfold neighbour_blocks in Hc.
    rewrite He in Hc. by apply elem_of_nil in Hc. }
  specialize (Hall node). rewrite forallb_forall in Hall.
  apply Nat.eqb_eq, Hall; [apply in_seq; lia|]. by apply list_elem_of_In.
Qed.

Lemma settled_node (width : nat) (G : graph_access) (block_upperbound : Z)
    (st : lp_state) (node : nat) :
  settled G (cluster_id st) = true →
  cluster_id (propagate_node width G block_upperbound st node) = cluster_id st.
Proof.
  intros Hset. unfold propagate_node. simpl.
  destruct (propagate_node_block width G block_upperbound st node) as [->|Hin].
  - apply insert_get_id.
  - rewrite (settled_spec G (cluster_id st) node _ Hset Hin). apply insert_get_id.
Qed.

(** X13 (a settled clustering is a fixed point): once every edge joins two
    nodes of the same cluster, no visit changes [cluster_id] any more,
    whatever the order, the capacity and the coin: every further pass
    leaves the assignment as it is. *)
Theorem settled_is_fixed_point (width : nat) (G : graph_access)
    (block_upperbound : Z) (order : list nat) (st : lp_state) (j k : nat) :
  settled G (cluster_id st) = true →
  cluster_id (pass_prefix width G block_upperbound order k st) = cluster_id st ∧
  cluster_id (passes width G block_upperbound order j st) = cluster_id st.
Proof.
  intros Hset.
  assert (Hpre : ∀ k st', cluster_id st' = cluster_id st →
            cluster_id (pass_prefix width G block_upperbound order k st')
            = cluster_id st).
  { intros k' st' Hst'.
    apply (pass_prefix_invariant width G block_upperbound order
             (λ st', cluster_id st' = cluster_id st)); try done.
    intros st'' node Hst''. rewrite settled_node; [done|]. by rewrite Hst''. }
  split; [by apply Hpre|].
  apply (passes_invariant width G block_upperbound order
           (λ st', cluster_id st' = cluster_id st)); try done.
  intros st'' node Hst''. rewrite settled_node; [done|]. by rewrite Hst''.
Qed.

(** ** The coin *)

Lemma sweep_draws (width : nat) (block_upperbound : Z) (cs : list Z)
    (cid : list nat) (w : Z) (my_block : nat) (es : list edge) (s : sweep) :
  let s' := foldl (select width block_upperbound cs cid w my_block) s es in
  flips (sw_rnd s') = flips (sw_rnd s) ∧
  drawn (sw_rnd s) ≤ drawn (sw_rnd s') ≤ drawn (sw_rnd s) + length es.
Proof.
  cbv zeta. revert s. induction es as [|e es IH]; intros s; simpl; [split; [done|lia]|].
  destruct (IH (select width block_upperbound cs cid w my_block s e)) as [Hf Hd].
  assert (Hstep : flips (sw_rnd (select width block_upperbound cs cid w my_block s e))
                  = flips (sw_rnd s) ∧
                  drawn (sw_rnd s)
                  ≤ drawn (sw_rnd (select width block_upperbound cs cid w my_block s e))
                  ≤ S (drawn (sw_rnd s))).
  { unfold select, improves.
    destruct (_ <? _)%Z; simpl; [split; [done|lia]|].
    destruct (_ =? _)%Z; simpl; split; (done || lia). }
  destruct Hstep as [Hf1 Hd1]. rewrite Hf, Hf1. split; [done|lia].
Qed.

(** X14 (use of the coin): a visit never changes the stream of flips, and
    draws at most one flip per out-edge of the visited node; a node without
    out-edges draws none. *)
Theorem propagate_node_draws (width : nat) (G : graph_access)
    (block_upperbound : Z) (st : lp_state) (node : nat) :
  let st' := propagate_node width G block_upperbound st node in
  flips (rnd st') = flips (rnd st) ∧
  drawn (rnd st) ≤ drawn (rnd st') ≤ drawn (rnd st) + length (out_edges G node).
Proof.
  cbv zeta. unfold propagate_node, second_sweep. simpl.
  apply (sweep_draws width block_upperbound (cluster_sizes st) (cluster_id st)
           (getNodeWeight width G node) (get 0 (cluster_id st) node)
           (out_edges G node)
           {| sw_hash := first_sweep width G (cluster_id st) (hash_map st) node;
              max_value := 0; max_block := get 0 (cluster_id st) node;
              sw_rnd := rnd st |}).
Qed.

(** ** Full neighbours *)

(** The block the sweep ends with is the one it started with or the block
    of an edge that passed the capacity test. *)
Lemma sweep_source_admitted (width : nat) (block_upperbound : Z) (cs : list Z)
    (cid : list nat) (w : Z) (my_block : nat) (es : list edge) (s : sweep) :
  let s' := foldl (select width block_upperbound cs cid w my_block) s es in
  max_block s' = max_block s
  ∨ (max_block s' ∈ map (λ e, get 0 cid (getEdgeTarget e)) es ∧
     admissible width block_upperbound cs w my_block (max_block s') = true).
Proof.
  cbv zeta. revert s. induction es as [|e es IH]; intros s; simpl; [by left|].
  destruct (IH (select width block_upperbound cs cid w my_block s e))
    as [->|[Hin Hadm]].
  - unfold select. destruct (improves _ _ _) as [better r]. simpl.
    destruct better; simpl; [|by left].
    destruct (admissible width block_upperbound cs w my_block
                (get 0 cid (getEdgeTarget e))) eqn:Hadm; simpl; [|by left].
    right. split; [apply elem_of_cons; by left|done].
  - right. split; [apply elem_of_cons; by right|done].
Qed.

(** X17 (full neighbours): when every cluster next to the visited node
    other than its own fails the capacity test, the node keeps its cluster,
    whatever the votes and the coin. *)
Theorem stays_when_others_full (width : nat) (G : graph_access)
    (block_upperbound : Z) (st : lp_state) (node : nat) :
  others_full width G block_upperbound st node = true →
  get 0 (cluster_id (propagate_node width G block_upperbound st node)) node
  = get 0 (cluster_id st) node.
Proof.
  intros Hfull. unfold propagate_node. simpl. rewrite get_insert.
  case_decide; [|done]. unfold second_sweep.
  destruct (sweep_source_admitted width block_upperbound (cluster_sizes st)
              (cluster_id st) (getNodeWeight width G node)
              (get 0 (cluster_id st) node) (out_edges G node)
              {| sw_hash := first_sweep width G (cluster_id st) (hash_map st) node;
                 max_value := 0; max_block := get 0 (cluster_id st) node;
                 sw_rnd := rnd st |}) as [Heq|[Hin Hadm]]; [done|].
  unfold others_full, neighbour_blocks in Hfull. rewrite forallb_forall in Hfull.
  apply list_elem_of_In, Hfull, orb_true_iff in Hin as [Hown|Hno].
  - by apply Nat.eqb_eq in Hown.
  - rewrite Hadm in Hno. done.
Qed.

(** * The export and the driver *)

Lemma create_coarsemapping_prefix (cid cm : list nat) (n : nat) :
  let cm' := foldl (λ cm node, <[node := get 0 cid node]> cm) cm (seq 0 n) in
  length cm' = length cm ∧
  ∀ i, cm' !! i = if decide (i < n ∧ i < length cm) then Some (get 0 cid i)
                  else cm !! i.
Proof.
  cbv zeta. induction n as [|n [IHlen IH]].
  - split; [done|]. intros i. rewrite decide_False; [done|lia].
  - rewrite seq_S, foldl_app. simpl. split; [by rewrite length_insert|].
    intros i. rewrite list_lookup_insert, IHlen, IH.
    repeat case_decide; try done; try lia.
    destruct_and?; subst. done.
Qed.

(** X15 (the export copies): [create_coarsemapping] keeps the length of
    [coarse_mapping], writes the cluster id of every node into the node's
    entry and leaves entries past the node count alone; when both vectors
    have one entry per node, the coarse mapping becomes the cluster id
    vector. *)
Theorem create_coarsemapping_copies (G : graph_access)
    (cid coarse_mapping : list nat) :
  let cm := create_coarsemapping G cid coarse_mapping in
  length cm = length coarse_mapping ∧
  (∀ node, node < number_of_nodes G → node < length coarse_mapping →
           cm !! node = Some (get 0 cid node)) ∧
  (∀ i, number_of_nodes G ≤ i → cm !! i = coarse_mapping !! i) ∧
  (length cid = number_of_nodes G →
   length coarse_mapping = number_of_nodes G → cm = cid).
Proof.
  cbv zeta. unfold create_coarsemapping.
  destruct (create_coarsemapping_prefix cid coarse_mapping (number_of_nodes G))
    as [Hlen Hlk].
  split; [done|]. split; [|split].
  - intros node Hn Hc. rewrite Hlk, decide_True; done.
  - intros i Hi. rewrite Hlk, decide_False; [done|lia].
  - intros Hcid Hcm. apply list_eq. intros i. rewrite Hlk.
    case_decide as Hi.
    + destruct (lookup_lt_is_Some_2 cid i ltac:(lia)) as [x Hx].
      by rewrite (get_lookup 0 _ _ _ Hx).
    + rewrite !lookup_ge_None_2; [done|lia..].
Qed.

Lemma propagated_range (width : nat) (cfg : Config) (G : graph_access)
    (block_upperbound : Z) (cid0 order : list nat) (r : random_functions) :
  range_inv G (propagated width cfg G block_upperbound cid0 order r).
Proof.
  unfold propagated.
  apply (passes_invariant width G block_upperbound order (range_inv G)).
  - intros st [? ? ? ?]. by split.
  - intros st node. apply range_inv_node.
  - apply range_inv_initial.
Qed.

(** X16 (what [match] hands back): the coarse mapping is the compacted
    cluster id vector of the engine run from a vector of zeros, it has one
    entry per node, its entries are exactly the numbers below
    [no_of_coarse_vertices], which is at most the node count and is the
    partition count of the graph returned, whether or not the remapper
    wrote the labels back; the graph keeps its node count and the
    permutation is sized to it. *)
Theorem match_result (width : nat) (apply_default : bool) (cfg : Config)
    (G : graph_access) (block_upperbound : Z)
    (coarse_mapping permutation order : list nat) (r : random_functions) :
  let res := match_ width apply_default cfg G block_upperbound
               coarse_mapping permutation order r in
  let G' := res.1.1.1 in
  let cm := res.1.1.2 in
  let k := res.1.2 in
  cm = (label_propagation width apply_default cfg G block_upperbound
          (replicate (number_of_nodes G) 0) order r).1.2 ∧
  length cm = number_of_nodes G ∧
  (∀ x, x ∈ cm ↔ x < k) ∧
  k ≤ number_of_nodes G ∧
  partition_count G' = k ∧
  number_of_nodes G' = number_of_nodes G ∧
  length res.2 = number_of_nodes G.
Proof.
  cbv zeta. unfold match_, match_internal, label_propagation.
  set (cid0 := replicate (number_of_nodes G) 0).
  set (st := propagated width cfg G block_upperbound cid0 order r).
  pose proof (propagated_range width cfg G block_upperbound cid0 order r) as Hst.
  fold st in Hst. pose proof (rg_ids_length _ _ Hst) as Hlen.
  pose proof (remap_cluster_ids_nodes G (cluster_id st) apply_default) as HN.
  destruct (remap_cluster_ids G (cluster_id st) apply_default) as [[G1 cid1] k1] eqn:Heq.
  cbn [fst snd] in *.
  destruct (remap_cluster_ids_inv _ _ _ _ _ _ Hlen Heq) as (s & Hinv & Hs & Hk).
  assert (Hlen1 : length cid1 = number_of_nodes G).
  { rewrite <- Hs, (ri_length _ _ _ Hinv). done. }
  assert (Hcm : create_coarsemapping G1 cid1
                  (resize (number_of_nodes G) 0 coarse_mapping) = cid1).
  { apply create_coarsemapping_copies; rewrite ?length_resize; lia. }
  rewrite Hcm. split; [done|]. split; [done|]. split.
  - intros x. rewrite <- Hs, <- Hk. by apply (remap_inv_values (cluster_id st)).
  - split; [|split; [done|split; [done|by rewrite length_resize]]].
    rewrite <- Hk, <- Hlen. apply (ri_count _ _ _ Hinv).
Qed.


(** ** The clusters handed back *)

Lemma propagated_state_at (width : nat) (cfg : Config) (G : graph_access)
    (block_upperbound : Z) (cid0 order : list nat) (r : random_functions) :
  let st := propagated width cfg G block_upperbound cid0 order r in
  let st0 := state_at width G block_upperbound cid0 order r
               (Z.to_nat (label_iterations cfg)) 0 in
  cluster_id st0 = cluster_id st ∧ cluster_sizes st0 = cluster_sizes st.
Proof. cbv zeta. unfold state_at, propagated. by rewrite Nat.min_0_l. Qed.

(** X4 (the clusters handed back keep the capacity): when the weight of
    the graph fits a [NodeWeight] and no node is heavier than
    [block_upperbound], every cluster that [label_propagation] reports,
    under its dense id, has a node and weighs at most [block_upperbound]. *)
Theorem final_clusters_within_capacity (width : nat) (apply_default : bool)
    (cfg : Config) (G G' : graph_access) (block_upperbound : Z)
    (cid0 order cid' : list nat) (r : random_functions) (k x : nat) :
  (total_node_weight width G < modulus width)%Z →
  weights_within width G block_upperbound = true →
  label_propagation width apply_default cfg G block_upperbound cid0 order r
  = (G', cid', k) →
  x < k →
  (∃ v, v < number_of_nodes G ∧ get 0 cid' v = x) ∧
  (member_weight width G cid' x ≤ block_upperbound)%Z.
Proof.
  intros Htotal Hw Heq Hx. unfold label_propagation in Heq.
  set (st := propagated width cfg G block_upperbound cid0 order r) in *.
  destruct (propagated_state_at width cfg G block_upperbound cid0 order r)
    as [Hid Hsz].
  fold st in Hid, Hsz.
  destruct (capacity_run width G block_upperbound cid0 order r
              (Z.to_nat (label_iterations cfg)) 0 Htotal Hw) as [Hinv Hcap].
  pose proof (si_ids_length _ _ _ Hinv) as Hlen.
  pose proof (si_ids_range _ _ _ Hinv) as Hrange.
  pose proof (si_sizes _ _ _ Hinv) as Hsizes.
  rewrite Hid in Hlen, Hrange, Hsizes. rewrite Hsz in Hcap, Hsizes.
  destruct (remap_cluster_ids_inv _ _ _ _ _ _ Hlen Heq) as (s & Hrm & Hs & Hk).
  subst cid' k.
  destruct (ri_onto _ _ _ Hrm x Hx) as [c Hc].
  destruct (ri_seen _ _ _ Hrm c x Hc) as (_ & (i & Hi & Hci) & _).
  rewrite Hlen in Hi.
  assert (HcN : c < number_of_nodes G).
  { rewrite <- (get_lookup 0 _ _ _ Hci). by apply Hrange. }
  assert (Hsame : ∀ v, v < number_of_nodes G →
            get 0 (remapped s) v = x ↔ get 0 (cluster_id st) v = c).
  { intros v Hv. rewrite <- Hlen in Hv.
    pose proof (remap_inv_get _ _ _ Hrm Hv) as Hm. split.
    - intros Hvx. rewrite Hvx in Hm. by apply (ri_inj _ _ _ Hrm _ _ x).
    - intros Hvc. rewrite Hvc in Hm. congruence. }
  split.
  - exists i. split; [done|]. apply Hsame; [done|]. by apply get_lookup.
  - assert (member_weight width G (remapped s) x
            = member_weight width G (cluster_id st) c) as ->.
    { unfold member_weight. apply sumZ_seq_ext. intros v Hv.
      destruct (decide (get 0 (cluster_id st) v = c)) as [Hvc|Hvc].
      - rewrite decide_True; [done|]. by apply Hsame.
      - rewrite decide_False; [done|]. intros Hvx. by apply Hvc, Hsame. }
    rewrite <- Hsizes by done. by apply Hcap.
Qed.

(** * The further properties at concrete inputs *)

(** X1 on the vector [3; 3; 1; 3]. *)
Lemma remap_cluster_ids_first_appearance_witness :
  length [3; 3; 1; 3] = number_of_nodes path4 ∧
  remap_cluster_ids path4 [3; 3; 1; 3] false = (path4, [0; 0; 1; 0], 2) ∧
  first_appearance_order [0; 0; 1; 0].
Proof.
  split; [done|]. split; [by_evaluation|].
  apply (remap_cluster_ids_first_appearance path4 path4 [3; 3; 1; 3] [0; 0; 1; 0]
           false 2); by_evaluation.
Defined.

(** X2 on the vector [3; 3; 1; 3]. *)
Lemma remap_cluster_ids_idempotent_witness :
  length [3; 3; 1; 3] = number_of_nodes path4 ∧
  remap_cluster_ids path4 [3; 3; 1; 3] false = (path4, [0; 0; 1; 0], 2) ∧
  (remap_cluster_ids path4 [0; 0; 1; 0] true).1.2 = [0; 0; 1; 0] ∧
  (remap_cluster_ids path4 [0; 0; 1; 0] true).2 = 2.
Proof.
  split; [done|]. split; [by_evaluation|].
  apply (remap_cluster_ids_idempotent path4 path4 [3; 3; 1; 3] [0; 0; 1; 0]
           false true 2); by_evaluation.
Defined.

(** X3 on a vector with two entries more than the path has nodes. *)
Lemma remap_cluster_ids_tail_witness :
  number_of_nodes path4 ≤ length [3; 3; 1; 3; 7; 7] ∧
  remap_cluster_ids path4 [3; 3; 1; 3; 7; 7] false
  = (path4, [0; 0; 1; 0; 7; 7], 2) ∧
  length [0; 0; 1; 0; 7; 7] = length [3; 3; 1; 3; 7; 7] ∧
  (number_of_nodes path4 ≤ 4 →
   [0; 0; 1; 0; 7; 7] !! 4 = [3; 3; 1; 3; 7; 7] !! 4).
Proof.
  split; [by_evaluation|]. split; [by_evaluation|].
  apply (remap_cluster_ids_tail path4 path4 [3; 3; 1; 3; 7; 7] [0; 0; 1; 0; 7; 7]
           false 2 4); by_evaluation.
Defined.

(** X7 on the path, two nodes into the first pass, cluster 1. *)
Lemma cluster_sizes_are_member_weights_witness :
  (total_node_weight 32 path4 < modulus 32)%Z ∧ 1 < number_of_nodes path4 ∧
  let st := state_at 32 path4 2 [] [0; 1; 2; 3] tails 0 2 in
  get 0%Z (cluster_sizes st) 1 = member_weight 32 path4 (cluster_id st) 1 ∧
  (1 ∉ cluster_id st → get 0%Z (cluster_sizes st) 1 = 0%Z).
Proof.
  split; [by_evaluation|]. split; [by_evaluation|].
  apply (cluster_sizes_are_member_weights 32 path4 2 [] [0; 1; 2; 3] tails 0 2 1);
    by_evaluation.
Defined.

(** X8 on the path with capacity 2, after one pass, cluster 2. *)
Lemma capacity_respected_witness :
  (total_node_weight 32 path4 < modulus 32)%Z ∧
  weights_within 32 path4 2 = true ∧ 2 < number_of_nodes path4 ∧
  let st := state_at 32 path4 2 [] [0; 1; 2; 3] heads 0 4 in
  (get 0%Z (cluster_sizes st) 2 ≤ 2)%Z ∧
  (member_weight 32 path4 (cluster_id st) 2 ≤ 2)%Z.
Proof.
  split; [by_evaluation|]. split; [by_evaluation|]. split; [by_evaluation|].
  apply (capacity_respected 32 path4 2 [] [0; 1; 2; 3] heads 0 4 2); by_evaluation.
Defined.

(** X9 on the path: one pass against three. *)
Lemma clusters_only_merge_witness :
  targets_in_range path4 = true ∧ 1 ≤ 3 ∧
  (∀ c, c ∈ cluster_id (propagated 32 {| label_iterations := Z.of_nat 3 |}
                          path4 4 [] [0; 1; 2; 3] heads) →
        c ∈ cluster_id (propagated 32 {| label_iterations := Z.of_nat 1 |}
                          path4 4 [] [0; 1; 2; 3] heads)) ∧
  (label_propagation 32 false {| label_iterations := Z.of_nat 3 |}
     path4 4 [] [0; 1; 2; 3] heads).2
  ≤ (label_propagation 32 false {| label_iterations := Z.of_nat 1 |}
       path4 4 [] [0; 1; 2; 3] heads).2.
Proof.
  split; [by_evaluation|]. split; [lia|].
  apply (clusters_only_merge 32 false path4 4 [] [0; 1; 2; 3] heads 1 3);
    [by_evaluation|lia].
Defined.

(** X10 on the path: the vote of node 1 for cluster 2 at the start. *)
Lemma first_sweep_accumulates_witness :
  2 < number_of_nodes path4 ∧
  let st := state_at 32 path4 2 [] [0; 1; 2; 3] tails 0 0 in
  get 0%Z (first_sweep 32 path4 (cluster_id st) (hash_map st) 1) 2
  = vote 32 path4 (cluster_id st) 1 2 ∧
  (2 ∉ neighbour_blocks path4 (cluster_id st) 1 →
   vote 32 path4 (cluster_id st) 1 2 = 0%Z).
Proof.
  split; [by_evaluation|].
  apply (first_sweep_accumulates 32 path4 2 [] [0; 1; 2; 3] tails 0 0 1 2).
  by_evaluation.
Defined.

(** X11 on the path: the visit of node 1, second of the first pass. *)
Lemma visit_plurality_witness :
  1 < number_of_nodes path4 ∧
  let st := state_at 32 path4 2 [] [0; 1; 2; 3] heads 0 1 in
  let st' := state_at 32 path4 2 [] [0; 1; 2; 3] heads 0 2 in
  let node := get 0 [0; 1; 2; 3] 1 in
  ∀ c, c ∈ neighbour_blocks path4 (cluster_id st) node →
       admissible 32 2 (cluster_sizes st) (getNodeWeight 32 path4 node)
         (get 0 (cluster_id st) node) c = true →
       (vote 32 path4 (cluster_id st) node c
        ≤ vote 32 path4 (cluster_id st) node (get 0%nat (cluster_id st') node))%Z.
Proof.
  split; [by_evaluation|].
  apply (visit_plurality 32 path4 2 [] [0; 1; 2; 3] heads 0 1). by_evaluation.
Defined.

(** X12 on the star: the leaves 1, 2 and 3 compete for node 0 with the
    votes 1, 1 and 3; the coin is drawn on the tie of the first two and
    comes up true, and node 0 ends in cluster 3. *)
Lemma strict_winner_is_chosen_witness :
  0 < number_of_nodes star4 ∧
  let st := state_at 32 star4 2 [] [0; 1; 2; 3] heads 0 0 in
  let st' := state_at 32 star4 2 [] [0; 1; 2; 3] heads 0 1 in
  let node := get 0 [0; 1; 2; 3] 0 in
  neighbour_blocks star4 (cluster_id st) node = [1; 2; 3] ∧
  map (vote 32 star4 (cluster_id st) node) [1; 2; 3] = [1; 1; 3]%Z ∧
  drawn (rnd st) = 0 ∧ drawn (rnd st') = 1 ∧
  strict_winner 32 star4 (cluster_id st) node 3 = true ∧
  admissible 32 2 (cluster_sizes st) (getNodeWeight 32 star4 node)
    (get 0 (cluster_id st) node) 3 = true ∧
  get 0 (cluster_id st') node = 3.
Proof.
  split; [by_evaluation|]. split; [by_evaluation|]. split; [by_evaluation|].
  split; [by_evaluation|]. split; [by_evaluation|].
  split; [by_evaluation|]. split; [by_evaluation|].
  apply (strict_winner_is_chosen 32 star4 2 [] [0; 1; 2; 3] heads 0 0 3);
    by_evaluation.
Defined.

(** X13 on the path once it is a single cluster. *)
Lemma settled_is_fixed_point_witness :
  let st := propagated 32 {| label_iterations := 20 |} path4 4 []
              [0; 1; 2; 3] heads in
  settled path4 (cluster_id st) = true ∧
  cluster_id (pass_prefix 32 path4 4 [3; 2; 1; 0] 2 st) = cluster_id st ∧
  cluster_id (passes 32 path4 4 [3; 2; 1; 0] 5 st) = cluster_id st.
Proof.
  split; [by_evaluation|].
  apply (settled_is_fixed_point 32 path4 4 [3; 2; 1; 0]). by_evaluation.
Defined.


(** X4 on the path with capacity 2: the cluster with dense id 1. *)
Lemma final_clusters_within_capacity_witness :
  (total_node_weight 32 path4 < modulus 32)%Z ∧
  weights_within 32 path4 2 = true ∧
  label_propagation 32 false {| label_iterations := 1 |} path4 2 []
    [0; 1; 2; 3] tails = (path4, [0; 0; 1; 1], 2) ∧
  1 < 2 ∧
  (∃ v, v < number_of_nodes path4 ∧ get 0 [0; 0; 1; 1] v = 1) ∧
  (member_weight 32 path4 [0; 0; 1; 1]%nat 1 ≤ 2)%Z.
Proof.
  split; [by_evaluation|]. split; [by_evaluation|]. split; [by_evaluation|].
  split; [lia|].
  apply (final_clusters_within_capacity 32 false {| label_iterations := 1 |}
           path4 path4 2 [] [0; 1; 2; 3] [0; 0; 1; 1] tails 2 1); by_evaluation.
Defined.

(** X17 on the triangle, after node 1 has joined cluster 2: both neighbours
    of node 0 are in cluster 2, which is full; the coin is drawn once and
    comes up true, and node 0 stays. *)
Lemma stays_when_others_full_witness :
  let st := state_at 32 triangle 2 [] [1; 0; 2] heads 0 1 in
  let st' := propagate_node 32 triangle 2 st 0 in
  neighbour_blocks triangle (cluster_id st) 0 = [2; 2] ∧
  get 0 (cluster_id st) 0 = 0 ∧
  drawn (rnd st') = S (drawn (rnd st)) ∧
  others_full 32 triangle 2 st 0 = true ∧
  get 0 (cluster_id st') 0 = get 0 (cluster_id st) 0.
Proof.
  split; [by_evaluation|]. split; [by_evaluation|]. split; [by_evaluation|].
  split; [by_evaluation|].
  apply (stays_when_others_full 32 triangle 2). by_evaluation.
Defined.
